(** * chatgpt-stream-cli.js : the streaming response pipeline

    A shallow embedding of the three parts of [src/app/chatgpt-stream-cli.js]
    that carry the program's logic:

    - [CodeBlockFormatter.formatToken]  (lines 168-206),
    - [streamChatOnce]                  (lines 208-269),
    - [isRetriable] and [askGPTStreamWithRetry] (lines 271-296).

    JavaScript strings are sequences of UTF-16 code units; they are modelled
    as [list N].  The conversation and everything the program writes or
    requests are kept in an explicit [World] that every function threads
    through; what the program reads from outside (flags, the network, the
    JSON parser) is an [Env]. *)

From Stdlib Require Import String Ascii Strings.Byte.
From Stdlib Require Import List ZArith NArith Bool Lia.
From Stdlib Require Import Sorting.Permutation Sorting.Sorted.
Import ListNotations.

Set Implicit Arguments.

(* ================================================================== *)
(** ** JavaScript strings *)
(* ================================================================== *)

Module JS.

(** One UTF-16 code unit. *)
Definition char := N.
Definition jsstring := list char.

Definition newline : char := 10%N.
Definition backtick : char := 96%N.

(** An ASCII literal as a JavaScript string. *)
Definition lit (s : string) : jsstring :=
  map N_of_ascii (list_ascii_of_string s).

(** The same, with every apostrophe of the literal read as a double quote
    (code unit 34): a way to write JSON text. *)
Definition litq (s : string) : jsstring :=
  map (fun c => if N.eqb c 39 then 34%N else c) (lit s).

Fixpoint eqb (a b : jsstring) : bool :=
  match a, b with
  | [], [] => true
  | x :: a', y :: b' => N.eqb x y && eqb a' b'
  | _, _ => false
  end.

(** [s.startsWith(p)]; a start position is expressed by passing the suffix
    of the string that begins there. *)
Fixpoint startsWith (p s : jsstring) : bool :=
  match p, s with
  | [], _ => true
  | _ :: _, [] => false
  | x :: p', y :: s' => N.eqb x y && startsWith p' s'
  end.

(** Truthiness of a string: non-empty. *)
Definition truthy (s : jsstring) : bool :=
  match s with [] => false | _ :: _ => true end.

(** ECMAScript WhiteSpace and LineTerminator code points, the ones
    [String.prototype.trim] strips. *)
Definition isWhiteSpace (c : char) : bool :=
  (existsb (N.eqb c)
     [9; 10; 11; 12; 13; 32; 160; 5760; 8232; 8233; 8239; 8287; 12288; 65279]
   || ((8192 <=? c) && (c <=? 8202)))%N.

Fixpoint trimStart (s : jsstring) : jsstring :=
  match s with
  | [] => []
  | c :: s' => if isWhiteSpace c then trimStart s' else s
  end.

Definition trimEnd (s : jsstring) : jsstring := rev (trimStart (rev s)).

Definition trim (s : jsstring) : jsstring := trimEnd (trimStart s).

(** [s.split('\n')]: never empty; the last element is what follows the last
    newline. *)
Fixpoint split_nl (s : jsstring) : list jsstring :=
  match s with
  | [] => [[]]
  | c :: s' =>
      if N.eqb c newline then [] :: split_nl s'
      else match split_nl s' with
           | [] => [[c]]
           | l :: ls => (c :: l) :: ls
           end
  end.

End JS.

Import JS.

(* ================================================================== *)
(** ** chalk: styled output *)
(* ================================================================== *)

(** [chalk.yellow(s)], [chalk.reset(s)], [chalk.cyan(s)], [chalk.gray(s)]
    wrap [s] in styling codes.  A styled string is kept as the sequence of
    its wrapped pieces; [Plain] is text written with no chalk call. *)
Inductive Style := Yellow | Reset | Cyan | Gray | Plain.

Definition Piece := (Style * jsstring)%type.
Definition Styled := list Piece.

(** The text that is left when the styling codes are removed. *)
Definition unstyled (out : Styled) : jsstring := concat (map snd out).

(* ================================================================== *)
(** ** class CodeBlockFormatter *)
(* ================================================================== *)

Module Formatter.

Record CodeBlockFormatter := mkFormatter {
  inCode : bool;
  pending : jsstring;
  currentLang : jsstring
}.

(** [constructor()] *)
Definition new : CodeBlockFormatter :=
  {| inCode := false; pending := []; currentLang := [] |}.

Definition fence : jsstring := [backtick; backtick; backtick].

Definition dashes (n : nat) : jsstring := repeat 9472%N n.

(** Line 189: newline, corner, two dashes, " code", the language in
    parentheses when it is not empty, a space, 25 dashes, newline. *)
Definition open_banner (lang : jsstring) : jsstring :=
  [newline; 9484%N] ++ dashes 2 ++ lit " code"
  ++ (if truthy lang then lit " (" ++ lang ++ lit ")" else [])
  ++ lit " " ++ dashes 25 ++ [newline].

(** Line 195: newline, corner, 46 dashes, newline. *)
Definition close_banner : jsstring :=
  [newline; 9492%N] ++ dashes 46 ++ [newline].

(** Lines 184-185: [j] runs from [i] to the first newline or to the end of
    the buffer; the result is [pending.slice(i, j)] and the buffer from [j]
    on. *)
Fixpoint until_newline (s : jsstring) : jsstring * jsstring :=
  match s with
  | [] => ([], [])
  | c :: s' =>
      if N.eqb c newline then ([], s)
      else let (tag, r) := until_newline s' in (c :: tag, r)
  end.

(** Line 187: step over the newline when [j] stopped on one. *)
Definition skip_newline (r : jsstring) : jsstring :=
  match r with
  | [] => []
  | c :: r' => if N.eqb c newline then r' else r
  end.

(** The [while (i < this.pending.length)] loop of lines 178-202, on the part
    of the buffer from [i] on.  Every iteration advances [i], so the length
    of the buffer is enough fuel ([scan_fuel]). *)
Fixpoint scan (fuel : nat) (code : bool) (lang : jsstring) (s : jsstring)
  : Styled * bool * jsstring :=
  match fuel with
  | O => ([], code, lang)
  | S fuel' =>
      match s with
      | [] => ([], code, lang)
      | ch :: s' =>
          if startsWith fence s then
            if negb code then
              let (tag, r) := until_newline (skipn 3 s) in
              let lang' := trim tag in
              let '(out, code', lang'') := scan fuel' true lang' (skip_newline r) in
              ((Yellow, open_banner lang') :: out, code', lang'')
            else
              let '(out, code', lang') := scan fuel' false [] (skipn 3 s) in
              ((Yellow, close_banner) :: out, code', lang')
          else
            let '(out, code', lang') := scan fuel' code lang s' in
            ((if code then Reset else Cyan, [ch]) :: out, code', lang')
      end
  end.

(** The scan of [a] and then the scan of [b] from the state the first one
    ends in: what two calls of [formatToken] do. *)
Definition scan_twice (n : nat) (code : bool) (lang a b : jsstring)
  : Styled * bool * jsstring :=
  let '(o1, c1, l1) := scan n code lang a in
  let '(o2, c2, l2) := scan (length b) c1 l1 b in
  (o1 ++ o2, c2, l2).

(** [formatToken(token)], lines 174-205. *)
Definition formatToken (f : CodeBlockFormatter) (token : jsstring)
  : Styled * CodeBlockFormatter :=
  let buf := pending f ++ token in
  let '(out, code, lang) := scan (length buf) (inCode f) (currentLang f) buf in
  (out, {| inCode := code; pending := []; currentLang := lang |}).

(** The deltas of one message fed in order to the same formatter; the
    outputs are concatenated as the terminal receives them. *)
Fixpoint formatAll (f : CodeBlockFormatter) (deltas : list jsstring)
  : Styled * CodeBlockFormatter :=
  match deltas with
  | [] => ([], f)
  | d :: ds =>
      let (out, f') := formatToken f d in
      let (outs, f'') := formatAll f' ds in
      (out ++ outs, f'')
  end.

(** The buffer is one or two backticks: a strict, non-empty prefix of the
    fence marker. *)
Definition partial_fence (s : jsstring) : bool :=
  match s with
  | [a] => N.eqb a backtick
  | [a; b] => N.eqb a backtick && N.eqb b backtick
  | _ => false
  end.

(** [settled fuel code s]: the scan of [s] never looks past the end of [s]
    for something it did not find there.  It fails when the scan reaches a
    tail of one or two backticks, or an opening fence whose language line
    has no newline inside [s]. *)
Fixpoint settled (fuel : nat) (code : bool) (s : jsstring) : bool :=
  match fuel with
  | O => true
  | S fuel' =>
      match s with
      | [] => true
      | ch :: s' =>
          if startsWith fence s then
            if negb code then
              match snd (until_newline (skipn 3 s)) with
              | [] => false
              | r => settled fuel' true (skip_newline r)
              end
            else settled fuel' false (skipn 3 s)
          else if partial_fence s then false
          else settled fuel' code s'
      end
  end.


End Formatter.

(* ================================================================== *)
(** ** TextDecoder *)
(* ================================================================== *)

(** [new TextDecoder()] is a platform object, not code of this program.  It
    is modelled after the UTF-8 decoder of the WHATWG Encoding Standard, with
    the defaults the program uses (replacement on error, the byte order mark
    stripped) and in streaming mode, as the only call of the program,
    [decoder.decode(chunk, { stream: true })], asks: the decoder keeps the
    bytes of an unfinished character between calls and is never flushed. *)
Module TextDecoder.

Record t := mk {
  code_point : N;
  bytes_seen : N;
  bytes_needed : N;
  lower : N;
  upper : N;
  bom_seen : bool
}.

Definition new : t :=
  {| code_point := 0; bytes_seen := 0; bytes_needed := 0;
     lower := 128; upper := 191; bom_seen := false |}.

(** What one byte makes of the decoding state: the new state and the code
    points that are complete. *)
Definition idle (d : t) : t :=
  {| code_point := 0; bytes_seen := 0; bytes_needed := 0;
     lower := 128; upper := 191; bom_seen := bom_seen d |}.

Definition lead (d : t) (b : N) : t * list N :=
  (if b <=? 127 then (idle d, [b])
   else if (194 <=? b) && (b <=? 223) then
     ({| code_point := N.land b 31; bytes_seen := 0; bytes_needed := 1;
         lower := 128; upper := 191; bom_seen := bom_seen d |}, [])
   else if (224 <=? b) && (b <=? 239) then
     ({| code_point := N.land b 15; bytes_seen := 0; bytes_needed := 2;
         lower := if b =? 224 then 160 else 128;
         upper := if b =? 237 then 159 else 191;
         bom_seen := bom_seen d |}, [])
   else if (240 <=? b) && (b <=? 244) then
     ({| code_point := N.land b 7; bytes_seen := 0; bytes_needed := 3;
         lower := if b =? 240 then 144 else 128;
         upper := if b =? 244 then 143 else 191;
         bom_seen := bom_seen d |}, [])
   else (idle d, [65533]))%N.

Definition handler (d : t) (b : N) : t * list N :=
  (if bytes_needed d =? 0 then lead d b
   else if (b <? lower d) || (upper d <? b) then
     let (d', cps) := lead (idle d) b in (d', 65533 :: cps)
   else
     let cp := N.lor (N.shiftl (code_point d) 6) (N.land b 63) in
     if bytes_seen d + 1 =? bytes_needed d then (idle d, [cp])
     else
       ({| code_point := cp; bytes_seen := bytes_seen d + 1;
           bytes_needed := bytes_needed d;
           lower := 128; upper := 191; bom_seen := bom_seen d |}, []))%N.

(** A code point as UTF-16 code units. *)
Definition code_units (cp : N) : jsstring :=
  (if cp <? 65536 then [cp]
   else [55296 + N.shiftr (cp - 65536) 10; 56320 + N.land (cp - 65536) 1023])%N.

(** The first code point that comes out is dropped when it is U+FEFF. *)
Fixpoint serialize (d : t) (cps : list N) : t * jsstring :=
  match cps with
  | [] => (d, [])
  | cp :: rest =>
      if bom_seen d then
        let (d', s) := serialize d rest in (d', code_units cp ++ s)
      else
        let d1 := {| code_point := code_point d; bytes_seen := bytes_seen d;
                     bytes_needed := bytes_needed d; lower := lower d;
                     upper := upper d; bom_seen := true |} in
        let (d', s) := serialize d1 rest in
        (d', if N.eqb cp 65279 then s else code_units cp ++ s)
  end.

Definition step (d : t) (b : byte) : t * jsstring :=
  let (d1, cps) := handler d (Byte.to_N b) in
  serialize d1 cps.

(** [decoder.decode(chunk, { stream: true })] *)
Fixpoint decode (d : t) (chunk : list byte) : jsstring * t :=
  match chunk with
  | [] => ([], d)
  | b :: rest =>
      let (d1, s1) := step d b in
      let (s2, d2) := decode d1 rest in
      (s1 ++ s2, d2)
  end.

End TextDecoder.

(** The bytes of an ASCII literal, and of one with apostrophes for double
    quotes. *)
Definition bytes (s : string) : list byte :=
  map byte_of_ascii (list_ascii_of_string s).

Definition bytesq (s : string) : list byte :=
  map (fun b => if Byte.eqb b x27 then x22 else b) (bytes s).

(* ================================================================== *)
(** ** The conversation, the terminal and the network *)
(* ================================================================== *)

Module Chat.

Import Formatter.

Inductive Role := system | user | assistant.

Record Message := mkMessage { role : Role; content : jsstring }.

(** What [streamChatOnce] returns: [{ ok: true }] or
    [{ ok: false, status, errorText }]. *)
Record AttemptResult := mkResult {
  ok : bool;
  status : option Z;
  errorText : option jsstring
}.

(** A call either returns or throws (its promise is rejected). *)
Inductive Outcome := Returned (r : AttemptResult) | Threw.

(** [res.body]: the chunks the stream delivers, and whether it then ends
    with an error instead of closing. *)
Record Body := mkBody { chunks : list (list byte); fails : bool }.

(** The [Response] of [fetch]; [res_text] is what
    [await res.text().catch(() => '')] gives. *)
Record Response := mkResponse {
  res_ok : bool;
  res_status : Z;
  res_statusText : jsstring;
  res_body : option Body;
  res_text : jsstring
}.

(** The lines written with [console.error]. *)
Inductive ErrLine :=
| HttpError (status : Z) (statusText text : jsstring)   (* line 223 *)
| RequestFailed (status : Z)                            (* line 287 *)
| VerboseHint                                           (* line 288 *)
| TransientError (status : Z) (delay_ms : Z).           (* line 293 *)

(** Everything the program does to the outside, in order. *)
Inductive Event :=
| Fetch (history : list Message)
| Stdout (s : Styled)
| Stderr (e : ErrLine)
| Prompt
| Sleep (ms : Z)
| SaveSession (saved : list Message).

Record World := mkWorld {
  messages : list Message;
  trace : list Event;
  requests : nat
}.

(** What the program reads and does not define: the [VERBOSE] flag,
    [CONFIG.autosave], the network, the file system, and
    [delta_content jsonStr], the string that
    [JSON.parse(jsonStr).choices?.[0]?.delta?.content || ''] appends to
    the reply (the empty string when [JSON.parse] or the path throws, or the
    value is falsy).  [fetch n history] is the response to request number [n],
    [None] when [fetch] rejects.  [saveSession n ms] is what
    [await saveSession()] of lines 102-108 does after [n] requests with the
    conversation [ms]: [Some file] when [fs.writeFile] wrote [file], [None]
    when it rejects, which nothing catches. *)
Record Env := mkEnv {
  VERBOSE : bool;
  autosave : bool;
  delta_content : jsstring -> jsstring;
  fetch : nat -> list Message -> option Response;
  saveSession : nat -> list Message -> option jsstring
}.

Definition log (ev : Event) (w : World) : World :=
  {| messages := messages w; trace := trace w ++ [ev]; requests := requests w |}.

(** [messages.push(m)] *)
Definition push (m : Message) (w : World) : World :=
  {| messages := messages w ++ [m]; trace := trace w; requests := requests w |}.

(** [if (CONFIG.autosave) await saveSession()]: the file is written and
    line 107 writes [Saved to] and its path in gray, or the write fails and
    the call throws.  The result is [false] when it throws. *)
Definition maybe_save (e : Env) (w : World) : bool * World :=
  if autosave e then
    match saveSession e (requests w) (messages w) with
    | Some file =>
        (true,
         log (Stdout [(Gray, lit "Saved to " ++ file); (Plain, [newline])])
             (log (SaveSession (messages w)) w))
    | None => (false, w)
    end
  else (true, w).

(** The save of a turn does not throw: [autosave] is off or the write
    succeeds. *)
Definition saved (e : Env) (n : nat) (ms : list Message) : bool :=
  negb (autosave e)
  || match saveSession e n ms with Some _ => true | None => false end.

(* ------------------------------------------------------------------ *)
(** *** The chunk decoder: lines 230-231 and 235-239 *)

Record ChunkDecoder := mkChunkDecoder {
  decoder : TextDecoder.t;
  buffer : jsstring
}.

Definition new_decoder : ChunkDecoder :=
  {| decoder := TextDecoder.new; buffer := [] |}.

(** One chunk: decode, append to the buffer, split at newlines, keep the
    last piece as the new buffer.  The result is the complete lines. *)
Definition feed (c : ChunkDecoder) (chunk : list byte)
  : list jsstring * ChunkDecoder :=
  let (text, d) := TextDecoder.decode (decoder c) chunk in
  let lines := split_nl (buffer c ++ text) in
  (removelast lines, {| decoder := d; buffer := last lines [] |}).

(** All the chunks of a body, with no early exit. *)
Fixpoint feed_all (c : ChunkDecoder) (cs : list (list byte))
  : list jsstring * ChunkDecoder :=
  match cs with
  | [] => ([], c)
  | chunk :: rest =>
      let (lines, c1) := feed c chunk in
      let (more, c2) := feed_all c1 rest in
      (lines ++ more, c2)
  end.

(** The complete lines of a text and the piece after the last newline,
    computed together: what [split] and [pop] separate. *)
Fixpoint complete (s : jsstring) : list jsstring * jsstring :=
  match s with
  | [] => ([], [])
  | c :: s' =>
      let (ls, r) := complete s' in
      if N.eqb c newline then ([] :: ls, r)
      else match ls with
           | [] => ([], c :: r)
           | l :: ls' => ((c :: l) :: ls', r)
           end
  end.

(** The buffer holds no newline. *)
Definition fragment (c : ChunkDecoder) : Prop :=
  complete (buffer c) = ([], buffer c).

(* ------------------------------------------------------------------ *)
(** *** The frame of a line: the tests of lines 242-261 *)

Inductive StreamFrame :=
| Delta (text : jsstring)
| Terminator
| Unrecognized.

Definition DONE : jsstring := lit "data: [DONE]".
Definition data_prefix : jsstring := lit "data: ".

Definition parse (e : Env) (raw : jsstring) : StreamFrame :=
  let line := trim raw in
  if negb (truthy line) then Unrecognized
  else if JS.eqb line DONE then Terminator
  else if startsWith data_prefix line then
    let token := delta_content e (skipn 6 line) in
    if truthy token then Delta token else Unrecognized
  else Unrecognized.

(** The frames of a list of lines, up to and with the first terminator, and
    whether there was one. *)
Fixpoint frames_of_lines (e : Env) (lines : list jsstring)
  : list StreamFrame * bool :=
  match lines with
  | [] => ([], false)
  | raw :: rest =>
      match parse e raw with
      | Terminator => ([Terminator], true)
      | f => let (fs, stop) := frames_of_lines e rest in (f :: fs, stop)
      end
  end.

(** The frames the two nested loops of lines 234-263 go through. *)
Fixpoint frames (e : Env) (c : ChunkDecoder) (cs : list (list byte))
  : list StreamFrame :=
  match cs with
  | [] => []
  | chunk :: rest =>
      let (lines, c1) := feed c chunk in
      let (fs, stop) := frames_of_lines e lines in
      if stop then fs else fs ++ frames e c1 rest
  end.

Fixpoint deltas (fs : list StreamFrame) : list jsstring :=
  match fs with
  | [] => []
  | Delta t :: rest => t :: deltas rest
  | _ :: rest => deltas rest
  end.

Definition has_terminator (fs : list StreamFrame) : bool :=
  existsb (fun f => match f with Terminator => true | _ => false end) fs.

(* ------------------------------------------------------------------ *)
(** *** streamChatOnce, lines 208-269 *)

(** The locals [reply] and [formatter]. *)
Record Turn := mkTurn { reply : jsstring; formatter : CodeBlockFormatter }.

Definition new_turn : Turn := {| reply := []; formatter := Formatter.new |}.

(** The writes of line 257 for a run of deltas through a formatter. *)
Fixpoint writes (f : CodeBlockFormatter) (ds : list jsstring) : list Event :=
  match ds with
  | [] => []
  | d :: rest =>
      let (out, f') := formatToken f d in Stdout out :: writes f' rest
  end.

Definition ok_result : AttemptResult :=
  {| ok := true; status := None; errorText := None |}.

(** Lines 245-248. *)
Definition on_done (e : Env) (t : Turn) (w : World) : Outcome * World :=
  let w1 := log (Stdout [(Plain, [newline; newline])]) w in
  let w2 := push {| role := assistant; content := reply t |} w1 in
  let (done, w3) := maybe_save e w2 in
  (if done then Returned ok_result else Threw, w3).

(** Lines 265-268. *)
Definition on_close (e : Env) (t : Turn) (w : World) : Outcome * World :=
  let w1 := log (Stdout [(Plain, [newline; newline])]) w in
  let w2 := if truthy (reply t)
            then push {| role := assistant; content := reply t |} w1
            else w1 in
  let (done, w3) := maybe_save e w2 in
  (if done then Returned ok_result else Threw, w3).

(** The body of [for (const raw of lines)], lines 242-261: [inl] when the
    function returns, [inr] when the loop goes on. *)
Definition on_line (e : Env) (raw : jsstring) (t : Turn) (w : World)
  : (Outcome * World) + (Turn * World) :=
  let line := trim raw in
  if negb (truthy line) then inr (t, w)
  else if JS.eqb line DONE then inl (on_done e t w)
  else if startsWith data_prefix line then
    let jsonStr := skipn 6 line in
    let token := delta_content e jsonStr in
    if truthy token then
      let (styled, f) := formatToken (formatter t) token in
      inr ({| reply := reply t ++ token; formatter := f |},
           log (Stdout styled) w)
    else inr (t, w)
  else inr (t, w).

Fixpoint on_lines (e : Env) (lines : list jsstring) (t : Turn) (w : World)
  : (Outcome * World) + (Turn * World) :=
  match lines with
  | [] => inr (t, w)
  | raw :: rest =>
      match on_line e raw t w with
      | inl r => inl r
      | inr (t1, w1) => on_lines e rest t1 w1
      end
  end.

(** [for await (const chunk of res.body)], lines 234-263, and what follows
    the loop. *)
Fixpoint on_chunks (e : Env) (cs : list (list byte)) (broken : bool)
  (c : ChunkDecoder) (t : Turn) (w : World) : Outcome * World :=
  match cs with
  | [] => if broken then (Threw, w) else on_close e t w
  | chunk :: rest =>
      let (lines, c1) := feed c chunk in
      match on_lines e lines t w with
      | inl r => r
      | inr (t1, w1) => on_chunks e rest broken c1 t1 w1
      end
  end.

(** Lines 222-224. *)
Definition transport_failure (e : Env) (res : Response) (w : World)
  : Outcome * World :=
  let w1 := if VERBOSE e
            then log (Stderr (HttpError (res_status res) (res_statusText res)
                                        (res_text res))) w
            else w in
  (Returned {| ok := false; status := Some (res_status res);
               errorText := Some (res_text res) |}, w1).

Definition gpt_prompt : Styled := [(Cyan, newline :: lit "GPT> ")].

Definition streamChatOnce (e : Env) (w : World) : Outcome * World :=
  let w0 := {| messages := messages w;
               trace := trace w ++ [Fetch (messages w)];
               requests := S (requests w) |} in
  match fetch e (requests w) (messages w) with
  | None => (Threw, w0)
  | Some res =>
      match res_body res with
      | None => transport_failure e res w0
      | Some body =>
          if negb (res_ok res) then transport_failure e res w0
          else
            on_chunks e (chunks body) (fails body) new_decoder new_turn
                      (log (Stdout gpt_prompt) w0)
      end
  end.

(* ------------------------------------------------------------------ *)
(** *** isRetriable and askGPTStreamWithRetry, lines 271-296 *)

Definition MAX_RETRIES : nat := 3.
Definition BASE_DELAY_MS : Z := 2000.

Definition TRANSIENT_CODES : list Z := [429%Z].

Definition isRetriable (status : Z) : bool :=
  existsb (Z.eqb status) TRANSIENT_CODES || (500 <=? status)%Z.

(** How a run of the retry loop ends, and how many times it called the
    executor. *)
Inductive Ending :=
| Succeeded                 (* line 283 *)
| Failed (status : Z)       (* line 290 *)
| Rejected                  (* the executor threw *)
| Exhausted.                (* the [for] condition became false *)

Record Run := mkRun { ending : Ending; invocations : nat }.

(** [r.status ?? 0], line 285. *)
Definition status_or_zero (r : AttemptResult) : Z :=
  match status r with Some s => s | None => 0%Z end.

(** Lines 287-289: the failure report. *)
Definition report_failure (verbose : bool) (r : AttemptResult) (w : World)
  : World :=
  let w1 := log (Stderr (RequestFailed (status_or_zero r))) w in
  let w2 := if negb verbose
               && match errorText r with
                  | Some t => truthy t
                  | None => false
                  end
            then log (Stderr VerboseHint) w1 else w1 in
  log Prompt w2.

(** The [for] loop of lines 279-295 over any executor [exec]; [left] is the
    number of iterations the condition [attempt <= MAX_RETRIES] still
    allows, [MAX_RETRIES + 1 - attempt], and [calls] counts the calls of
    [exec] so far. *)
Fixpoint retry (exec : World -> Outcome * World) (verbose : bool)
  (left attempt calls : nat) (w : World) : Run * World :=
  match left with
  | O => ({| ending := Exhausted; invocations := calls |}, w)
  | S left' =>
      let (o, w1) := exec w in
      match o with
      | Threw => ({| ending := Rejected; invocations := S calls |}, w1)
      | Returned r =>
          if ok r then
            ({| ending := Succeeded; invocations := S calls |}, log Prompt w1)
          else
            let st := status_or_zero r in
            if negb (isRetriable st) || Nat.eqb attempt MAX_RETRIES then
              ({| ending := Failed st; invocations := S calls |},
               report_failure verbose r w1)
            else
              let delay := (BASE_DELAY_MS * 2 ^ Z.of_nat attempt)%Z in
              let w2 := log (Stderr (TransientError st delay)) w1 in
              retry exec verbose left' (S attempt) (S calls) (log (Sleep delay) w2)
      end
  end.

(** Line 277: [messages.push({ role: 'user', content: userText })]. *)
Definition ask (userText : jsstring) (w : World) : World :=
  push {| role := user; content := userText |} w.

(** The retry controller over any executor. *)
Definition run (exec : World -> Outcome * World) (verbose : bool)
  (userText : jsstring) (w : World) : Run * World :=
  retry exec verbose (S MAX_RETRIES) 0 0 (ask userText w).

Definition askGPTStreamWithRetry (e : Env) (userText : jsstring) (w : World)
  : Run * World :=
  run (streamChatOnce e) (VERBOSE e) userText w.



Definition count_role (r : Role) (ms : list Message) : nat :=
  List.length (filter (fun m => match role m, r with
                            | system, system | user, user
                            | assistant, assistant => true
                            | _, _ => false
                            end) ms).

(** [w1] has the messages of [w] and then only assistant messages. *)
Definition grows (w w1 : World) : Prop :=
  exists tail, messages w1 = messages w ++ tail /\ count_role user tail = 0.

(** The failure report of line 287 is in the trace. *)
Definition reported_failure (tr : list Event) : bool :=
  existsb (fun ev => match ev with
                     | Stderr (RequestFailed _) => true
                     | _ => false
                     end) tr.

Definition wrote_stdout (tr : list Event) : bool :=
  existsb (fun ev => match ev with Stdout _ => true | _ => false end) tr.

End Chat.

(* ================================================================== *)
(** ** Inputs for the examples *)
(* ================================================================== *)

Module Sample.

Import Formatter Chat.

(** The deltas of the example of the specification:
    ["Here:\n```py", "thon\nprint(1)\n```", "\ndone"]. *)
Definition example_deltas : list jsstring :=
  [ lit "Here:" ++ [newline] ++ lit "```py";
    lit "thon" ++ [newline] ++ lit "print(1)" ++ [newline] ++ lit "```";
    newline :: lit "done" ].

(** The same message cut at line ends. *)
Definition line_deltas : list jsstring :=
  [ lit "Here:" ++ [newline];
    lit "```python" ++ [newline];
    lit "print(1)" ++ [newline] ++ lit "```" ++ [newline];
    lit "done" ].

Definition prose (s : jsstring) : Styled := map (fun c => (Cyan, [c])) s.
Definition code (s : jsstring) : Styled := map (fun c => (Reset, [c])) s.

Definition is_banner (p : Piece) : bool :=
  match fst p with Yellow => true | _ => false end.

(** A stand-in for [delta_content] that agrees with [JSON.parse] and the
    path [choices[0].delta.content] on payloads of the one shape
    [{"choices":[{"delta":{"content":"TEXT"}}]}] where TEXT has no quote, no
    backslash and no control character, and gives the empty string on every
    other payload.  It is used to run the examples, nowhere else. *)
Definition payload_head : jsstring := litq "{'choices':[{'delta':{'content':'".
Definition payload_tail : jsstring := litq "'}}]}".

Definition plain_json_char (c : char) : bool :=
  (negb (c =? 34) && negb (c =? 92) && (32 <=? c))%N.

Definition sample_delta_content (s : jsstring) : jsstring :=
  if startsWith payload_head s then
    let rest := skipn (List.length payload_head) s in
    let n := List.length rest - List.length payload_tail in
    let text := firstn n rest in
    if JS.eqb (skipn n rest) payload_tail && forallb plain_json_char text
    then text else []
  else [].

(** An environment in which request [n] gets [responses n]. *)
Definition env (responses : nat -> option Response) : Env :=
  {| VERBOSE := false; autosave := false;
     delta_content := sample_delta_content;
     fetch := fun n _ => responses n;
     saveSession := fun _ _ => Some (lit "session.json") |}.

(** The same with [autosave] on and a sessions directory that cannot be
    written. *)
Definition env_unsaved (responses : nat -> option Response) : Env :=
  {| VERBOSE := false; autosave := true;
     delta_content := sample_delta_content;
     fetch := fun n _ => responses n;
     saveSession := fun _ _ => None |}.

Definition streaming (cs : list (list byte)) : Response :=
  {| res_ok := true; res_status := 200; res_statusText := lit "OK";
     res_body := Some {| chunks := cs; fails := false |}; res_text := [] |}.

Definition failing (st : Z) : Response :=
  {| res_ok := false; res_status := st; res_statusText := [];
     res_body := Some {| chunks := []; fails := false |};
     res_text := lit "error" |}.

Definition start : World :=
  {| messages := [ {| role := system; content := lit "system prompt" |} ];
     trace := []; requests := 0 |}.

(** Two data frames and no terminator; the second is cut inside its
    payload. *)
Definition two_deltas : list (list byte) :=
  [ bytesq "data: {'choices':[{'delta':{'content':'Hel'}}]}" ++ [x0a; x0a]
      ++ bytesq "data: {'choices':[{'del";
    bytesq "ta':{'content':'lo'}}]}" ++ [x0a; x0a] ].

(** Two data frames; the last line has no newline after it. *)
Definition cut_last : list (list byte) :=
  [ bytesq "data: {'choices':[{'delta':{'content':'Hel'}}]}" ++ [x0a];
    bytesq "data: {'choices':[{'delta':{'content':'lo'}}]}" ].

(** A successful response whose stream delivers [cs] and then ends with an
    error. *)
Definition breaking (cs : list (list byte)) : Response :=
  {| res_ok := true; res_status := 200; res_statusText := lit "OK";
     res_body := Some {| chunks := cs; fails := true |}; res_text := [] |}.

(** An executor whose result carries no status. *)
Definition no_status (w : World) : Outcome * World :=
  (Returned {| ok := false; status := None; errorText := None |}, w).

End Sample.

(* ================================================================== *)
(** ** Reading the output and the trace *)
(* ================================================================== *)

Module Observe.

Import Formatter Chat.

(** A buffer holds the whole fence marker somewhere. *)
Fixpoint contains_fence (s : jsstring) : bool :=
  match s with
  | [] => false
  | _ :: s' => startsWith fence s || contains_fence s'
  end.

(** The banners of an output, in order: [true] for the banner of line 189
    (its second character is the upper corner), [false] for the one of
    line 195 (the lower corner). *)
Definition banner_kind (p : Piece) : option bool :=
  match p with
  | (Yellow, _ :: c :: _) =>
      if N.eqb c 9484 then Some true
      else if N.eqb c 9492 then Some false else None
  | _ => None
  end.

Fixpoint banners (out : Styled) : list bool :=
  match out with
  | [] => []
  | p :: rest =>
      match banner_kind p with
      | Some b => b :: banners rest
      | None => banners rest
      end
  end.

(** A sequence of banners read from a state: an opening banner is allowed
    outside a code block only, a closing one inside only.  [None] when the
    sequence breaks this, the state at the end otherwise. *)
Fixpoint paired (code : bool) (bs : list bool) : option bool :=
  match bs with
  | [] => Some code
  | b :: rest => if Bool.eqb b code then None else paired b rest
  end.

(** The decoder between two characters, after the first one. *)
Definition after_character : TextDecoder.t :=
  {| TextDecoder.code_point := 0; TextDecoder.bytes_seen := 0;
     TextDecoder.bytes_needed := 0; TextDecoder.lower := 128;
     TextDecoder.upper := 191; TextDecoder.bom_seen := true |}.

Fixpoint sleeps (tr : list Event) : list Z :=
  match tr with
  | [] => []
  | Sleep ms :: rest => ms :: sleeps rest
  | _ :: rest => sleeps rest
  end.

Fixpoint fetches (tr : list Event) : list (list Message) :=
  match tr with
  | [] => []
  | Fetch h :: rest => h :: fetches rest
  | _ :: rest => fetches rest
  end.

Fixpoint prompts (tr : list Event) : nat :=
  match tr with
  | [] => 0
  | Prompt :: rest => S (prompts rest)
  | _ :: rest => prompts rest
  end.

(** Events that only write: to the terminal, to the error output, to a
    session file. *)
Definition is_output (ev : Event) : bool :=
  match ev with
  | Stdout _ | Stderr _ | SaveSession _ => true
  | Fetch _ | Prompt | Sleep _ => false
  end.

(** [w1] is [w] after some writes: the trace has grown by output events
    and no request was made. *)
Definition writes_only (w w1 : World) : Prop :=
  exists added,
    trace w1 = trace w ++ added
    /\ forallb is_output added = true
    /\ requests w1 = requests w.

(** The calls of [rl.prompt()] of a run that ends this way: lines 282 and
    289. *)
Definition shows_prompt (x : Ending) : nat :=
  match x with Rejected | Exhausted => 0 | Succeeded | Failed _ => 1 end.

(** Line 292: [BASE_DELAY_MS * Math.pow(2, attempt)]. *)
Definition backoff (attempt : nat) : Z :=
  (BASE_DELAY_MS * 2 ^ Z.of_nat attempt)%Z.

(** The requests and the waits of a trace, in the order they happen. *)
Fixpoint calls_and_waits (tr : list Event) : list Event :=
  match tr with
  | [] => []
  | Fetch h :: rest => Fetch h :: calls_and_waits rest
  | Sleep ms :: rest => Sleep ms :: calls_and_waits rest
  | _ :: rest => calls_and_waits rest
  end.

(** [k] retries with the history [h]: each is a wait and then a request,
    the first wait being the one of [attempt]. *)
Fixpoint retries (h : list Message) (attempt k : nat) : list Event :=
  match k with
  | O => []
  | S k' => Sleep (backoff attempt) :: Fetch h :: retries h (S attempt) k'
  end.

End Observe.

(* ================================================================== *)
(** ** sayGoodbyeAndExit, lines 298-305 *)
(* ================================================================== *)

Module Goodbye.

Import Chat.

Definition farewell : jsstring :=
  lit "Please say a short, warm goodbye to the user before we end the session.".

(** The result is whether [process.exit(0)] is reached: it is not when
    [streamChatOnce] throws.  [console.log('Goodbye.')] writes the text and
    a newline. *)
Definition sayGoodbyeAndExit (e : Env) (w : World) : bool * World :=
  let w1 := push {| role := user; content := farewell |} w in
  let (o, w2) := streamChatOnce e w1 in
  match o with
  | Threw => (false, w2)
  | Returned r =>
      (true,
       if negb (ok r)
       then log (Stdout [(Plain, lit "Goodbye." ++ [newline])]) w2
       else w2)
  end.

End Goodbye.

(* ================================================================== *)
(** ** Slash commands on the conversation, lines 345-380 *)
(* ================================================================== *)

Module Commands.

Import Chat.

Definition space : char := 32%N.

(** [s.split(sep)] for a separator of one character. *)
Fixpoint split_on (sep : char) (s : jsstring) : list jsstring :=
  match s with
  | [] => [[]]
  | c :: s' =>
      if N.eqb c sep then [] :: split_on sep s'
      else match split_on sep s' with
           | [] => [[c]]
           | l :: ls => (c :: l) :: ls
           end
  end.

(** [parts.join(sep)] *)
Fixpoint join (sep : char) (parts : list jsstring) : jsstring :=
  match parts with
  | [] => []
  | [x] => x
  | x :: rest => x ++ sep :: join sep rest
  end.

(** Lines 346-347: [cmd] and [argStr].  [split] gives at least one part, so
    [cmd] is never undefined; the first case is not reached. *)
Definition command_of (input : jsstring) : jsstring * jsstring :=
  match split_on space (skipn 1 input) with
  | [] => ([], [])
  | cmd :: rest => (cmd, trim (join space rest))
  end.

Definition is_system (m : Message) : bool :=
  match role m with system => true | _ => false end.

(** A message that is not a system message. *)
Definition other (m : Message) : bool := negb (is_system m).

(** [defaultSystemPrompt()] of lines 79-81, with [CONFIG.systemPrompt] as
    [prompt]: the conversation of [/new] and of the start. *)
Definition defaultSystemPrompt (prompt : jsstring) : list Message :=
  [ {| role := system; content := prompt |} ].

(** Lines 352-353, [/clear]: one object, the copy of the first system
    message; [find] gives undefined when there is none and the copy is then
    the empty object, which is [None] here. *)
Definition clear (ms : list Message) : list (option Message) :=
  [ find is_system ms ].

(** [ms.findIndex(p)], with [None] for -1. *)
Fixpoint findIndex (p : Message -> bool) (ms : list Message) : option nat :=
  match ms with
  | [] => None
  | m :: rest =>
      if p m then Some 0
      else match findIndex p rest with
           | Some i => Some (S i)
           | None => None
           end
  end.

(** [ms[i].content = text] *)
Fixpoint set_content (i : nat) (text : jsstring) (ms : list Message)
  : list Message :=
  match ms, i with
  | [], _ => []
  | m :: rest, O => {| role := role m; content := text |} :: rest
  | m :: rest, S i' => m :: set_content i' text rest
  end.

(** Lines 372-380, [/system <text>]: nothing but a usage line when the text
    is empty. *)
Definition system_command (argStr : jsstring) (ms : list Message)
  : list Message :=
  if negb (truthy argStr) then ms
  else match findIndex is_system ms with
       | Some i => set_content i argStr ms
       | None => {| role := system; content := argStr |} :: ms
       end.

(** The conversation starts with a system message. *)
Definition prompt_first (ms : list Message) : Prop :=
  exists p rest, ms = {| role := system; content := p |} :: rest.

End Commands.

(* ================================================================== *)
(** ** Saved sessions, lines 96-100 and 116-122 *)
(* ================================================================== *)

Module Sessions.

Definition json_ext : jsstring := lit ".json".

(** [s.endsWith(suffix)] *)
Definition endsWith (suffix s : jsstring) : bool :=
  startsWith (rev suffix) (rev s).

(** The order of the default [sort()]: strings compared code unit by code
    unit.  It is total and two strings that are each below the other are
    equal, so the sorted list does not depend on the sorting algorithm. *)
Fixpoint leb (a b : jsstring) : bool :=
  match a, b with
  | [], _ => true
  | _ :: _, [] => false
  | x :: a', y :: b' =>
      if N.ltb x y then true else if N.ltb y x then false else leb a' b'
  end.

Definition below (a b : jsstring) : Prop := leb a b = true.

Fixpoint insert (x : jsstring) (l : list jsstring) : list jsstring :=
  match l with
  | [] => [x]
  | y :: l' => if leb x y then x :: l else y :: insert x l'
  end.

Fixpoint sort (l : list jsstring) : list jsstring :=
  match l with
  | [] => []
  | x :: l' => insert x (sort l')
  end.

(** [f.replace(/\.json$/, '')] *)
Definition strip_json (f : jsstring) : jsstring :=
  if endsWith json_ext f then firstn (length f - length json_ext) f else f.

Record SessionEntry := mkEntry {
  index : N;
  file : jsstring;
  name : jsstring
}.

(** [.map((f, i) => ({ index: i + 1, file: f, name: ... }))] from
    position [i] on. *)
Fixpoint entries (i : N) (fs : list jsstring) : list SessionEntry :=
  match fs with
  | [] => []
  | f :: rest =>
      {| index := i + 1; file := f; name := strip_json f |}
      :: entries (i + 1) rest
  end.

(** [listSessions()], for the names [files] that [fs.readdir] gives. *)
Definition listSessions (files : list jsstring) : list SessionEntry :=
  entries 0 (sort (filter (endsWith json_ext) files)).

(** Lines 103-104 of [saveSession]: the name under which the session is
    saved and the name that [path.join] puts under the sessions directory,
    for [name] the argument of [/save] and [stamp] the result of
    [timestampSlug()]. *)
Definition session_base (name stamp : jsstring) : jsstring :=
  if truthy name then name else lit "session_" ++ stamp.

Definition session_file (name stamp : jsstring) : jsstring :=
  session_base name stamp ++ json_ext.

Definition is_digit (c : char) : bool := ((48 <=? c) && (c <=? 57))%N.

(** [/^\d+$/.test(s)] *)
Definition all_digits (s : jsstring) : bool := truthy s && forallb is_digit s.

(** [parseInt(s, 10)] on a string of digits.  The value is exact here; the
    program's is a double, which agrees for the comparison with an index as
    long as there are fewer than 2^53 sessions. *)
Definition parseInt (s : jsstring) : N :=
  fold_left (fun acc c => (acc * 10 + (c - 48))%N) s 0%N.

(** Lines 116-122 of [loadSession]: the entry that [identifier] names. *)
Definition choose (identifier : jsstring) (all : list SessionEntry)
  : option SessionEntry :=
  if all_digits identifier then
    find (fun x => N.eqb (index x) (parseInt identifier)) all
  else
    match find (fun x => JS.eqb (name x) identifier) all with
    | Some x => Some x
    | None => find (fun x => JS.eqb (file x) identifier) all
    end.

End Sessions.

(* ================================================================== *)
(** ** Properties of the strings *)
(* ================================================================== *)

Lemma unstyled_app (a b : Styled) :
  unstyled (a ++ b) = unstyled a ++ unstyled b.
Proof. unfold unstyled. now rewrite map_app, concat_app. Qed.

Lemma eqb_eq (a b : jsstring) : JS.eqb a b = true <-> a = b.
Proof.
  revert b; induction a as [|x a IH]; intros [|y b]; simpl;
    try (split; [discriminate | discriminate]); try tauto.
  rewrite andb_true_iff, N.eqb_eq, IH. split.
  - now intros [-> ->].
  - intros H; injection H; auto.
Qed.

(* ================================================================== *)
(** ** The formatter *)
(* ================================================================== *)

Module FormatterFacts.

Import Formatter.

Lemma until_newline_split (s : jsstring) :
  fst (until_newline s) ++ snd (until_newline s) = s.
Proof.
  induction s as [|c s IH]; simpl; auto.
  destruct (N.eqb c newline); simpl; auto.
  destruct (until_newline s) as [tag r]; simpl in *. now rewrite IH.
Qed.

Lemma until_newline_length (s : jsstring) :
  length (snd (until_newline s)) <= length s.
Proof.
  rewrite <- (until_newline_split s) at 2. rewrite length_app. lia.
Qed.

Lemma skip_newline_length (r : jsstring) :
  length (skip_newline r) <= length r.
Proof. destruct r as [|c r]; simpl; auto. destruct (N.eqb c newline); simpl; lia. Qed.

Lemma startsWith_fence (s : jsstring) :
  startsWith fence s = true -> exists s', s = fence ++ s'.
Proof.
  unfold fence.
  destruct s as [|a [|b [|c s]]]; cbn [startsWith];
    rewrite ?andb_false_r; try discriminate.
  rewrite !andb_true_iff, !N.eqb_eq. intros (<- & <- & <- & _). now exists s.
Qed.

Lemma language_line_length (s : jsstring) :
  startsWith fence s = true ->
  length (skip_newline (snd (until_newline (skipn 3 s)))) < length s.
Proof.
  intros H. destruct (startsWith_fence s H) as [s' ->]. simpl skipn.
  pose proof (until_newline_length s').
  pose proof (skip_newline_length (snd (until_newline s'))).
  simpl length. lia.
Qed.

(** Any fuel from the length of the buffer on gives the same scan: the loop
    ends when the buffer is used up. *)
Lemma scan_fuel_eq (m n : nat) : forall code lang s,
  length s <= m -> length s <= n -> scan m code lang s = scan n code lang s.
Proof.
  revert n. induction m as [|m IH]; intros n code lang s Hm Hn.
  - destruct s; [|simpl in Hm; lia]. destruct n; reflexivity.
  - destruct n as [|n].
    + destruct s; [reflexivity | simpl in Hn; lia].
    + destruct s as [|ch s']; [reflexivity|].
      cbn [scan]. destruct (startsWith fence (ch :: s')) eqn:Hf.
      * pose proof (language_line_length _ Hf) as Hl.
        destruct (startsWith_fence _ Hf) as [s3 E].
        assert (Hs3 : length (skipn 3 (ch :: s')) < length (ch :: s')).
        { rewrite E. simpl. lia. }
        destruct (negb code).
        -- destruct (until_newline (skipn 3 (ch :: s'))) as [tag r] eqn:Hu.
           simpl snd in Hl.
           rewrite (IH n true (trim tag) (skip_newline r)) by lia.
           reflexivity.
        -- rewrite (IH n false [] (skipn 3 (ch :: s'))) by lia. reflexivity.
      * simpl in Hm, Hn. rewrite (IH n code lang s') by lia. reflexivity.
Qed.

Lemma scan_fuel (n : nat) (code : bool) (lang s : jsstring) :
  length s <= n -> scan n code lang s = scan (length s) code lang s.
Proof. intros H. apply scan_fuel_eq; auto. Qed.

(** *** Cutting the buffer where the scan is settled *)

Lemma startsWith_fence_app (a b : jsstring) :
  startsWith fence a = true -> startsWith fence (a ++ b) = true.
Proof.
  intros H. destruct (startsWith_fence a H) as [a' ->].
  reflexivity.
Qed.

Lemma startsWith_fence_app_no (a b : jsstring) :
  a <> [] -> startsWith fence a = false -> partial_fence a = false ->
  startsWith fence (a ++ b) = false.
Proof.
  unfold fence.
  destruct a as [|x [|y [|z a]]]; [congruence| | |];
    cbn [startsWith partial_fence app]; intros _.
  - rewrite N.eqb_sym. now intros _ ->.
  - rewrite (N.eqb_sym x), (N.eqb_sym y). intros _ H.
    destruct (N.eqb backtick x); [|reflexivity].
    destruct (N.eqb backtick y); [discriminate|reflexivity].
  - now intros H _.
Qed.

Lemma skipn_fence_app (a b : jsstring) :
  startsWith fence a = true -> skipn 3 (a ++ b) = skipn 3 a ++ b.
Proof. intros H. destruct (startsWith_fence a H) as [a' ->]. reflexivity. Qed.

Lemma until_newline_app (s b : jsstring) :
  snd (until_newline s) <> [] ->
  until_newline (s ++ b)
  = (fst (until_newline s), snd (until_newline s) ++ b).
Proof.
  induction s as [|c s IH]; simpl; [congruence|].
  destruct (N.eqb c newline); [reflexivity|].
  destruct (until_newline s) as [tag r]; simpl in *.
  intros H. now rewrite (IH H).
Qed.

Lemma skip_newline_app (r b : jsstring) :
  r <> [] -> skip_newline (r ++ b) = skip_newline r ++ b.
Proof.
  destruct r as [|c r]; [congruence|]. intros _. simpl.
  now destruct (N.eqb c newline).
Qed.

(** The scan of [a ++ b] is the scan of [a] followed by the scan of [b] from
    the state the first one ends in, when the scan of [a] is settled. *)
Lemma scan_app (n : nat) : forall (a : jsstring) code lang (b : jsstring),
  length a <= n -> settled n code a = true ->
  scan (n + length b) code lang (a ++ b) = scan_twice n code lang a b.
Proof.
  unfold scan_twice.
  induction n as [|n IH]; intros a code lang b Hlen Hs.
  - destruct a; [|simpl in Hlen; lia]. simpl.
    now destruct (scan (length b) code lang b) as [[o c] l].
  - destruct a as [|ch a'].
    + rewrite app_nil_l. rewrite scan_fuel by lia. simpl.
      now destruct (scan (length b) code lang b) as [[o c] l].
    + change (S n + length b) with (S (n + length b)).
      change ((ch :: a') ++ b) with (ch :: (a' ++ b)).
      cbn [scan]. cbn [settled] in Hs.
      change (ch :: (a' ++ b)) with ((ch :: a') ++ b).
      destruct (startsWith fence (ch :: a')) eqn:Hf.
      * rewrite (startsWith_fence_app _ b Hf).
        rewrite (skipn_fence_app _ b Hf).
        pose proof (language_line_length _ Hf) as Hl.
        assert (Hs3 : length (skipn 3 (ch :: a')) < length (ch :: a')).
        { destruct (startsWith_fence _ Hf) as [s3 E]. rewrite E. simpl. lia. }
        destruct (negb code).
        -- destruct (snd (until_newline (skipn 3 (ch :: a')))) as [|c0 r0] eqn:Hr;
             [discriminate|].
           rewrite until_newline_app by (rewrite Hr; discriminate).
           rewrite Hr in *.
           rewrite skip_newline_app by discriminate.
           destruct (until_newline (skipn 3 (ch :: a'))) as [tag r] eqn:Hu.
           simpl in Hr. subst r. cbn [fst].
           rewrite IH by (auto; lia).
           destruct (scan n true (trim tag) (skip_newline (c0 :: r0))) as [[o1 c1] l1].
           now destruct (scan (length b) c1 l1 b) as [[o2 c2] l2].
        -- rewrite IH by (auto; lia).
           destruct (scan n false [] (skipn 3 (ch :: a'))) as [[o1 c1] l1].
           now destruct (scan (length b) c1 l1 b) as [[o2 c2] l2].
      * destruct (partial_fence (ch :: a')) eqn:Hp; [discriminate|].
        rewrite (startsWith_fence_app_no b) by (auto; discriminate).
        change ((ch :: a') ++ b) with (ch :: (a' ++ b)). cbn iota.
        simpl in Hlen.
        rewrite IH by (auto; lia).
        destruct (scan n code lang a') as [[o1 c1] l1].
        now destruct (scan (length b) c1 l1 b) as [[o2 c2] l2].
Qed.

Lemma until_newline_open (s : jsstring) (x : char) :
  N.eqb x newline = false ->
  snd (until_newline s) = [] ->
  until_newline (s ++ [x]) = (fst (until_newline s) ++ [x], []).
Proof.
  intros Hx. induction s as [|c s IH]; simpl.
  - now rewrite Hx.
  - destruct (N.eqb c newline); [discriminate|].
    destruct (until_newline s) as [tag r]; simpl in *.
    intros H. now rewrite (IH H).
Qed.

Lemma out_scan_twice (n : nat) (code : bool) (lang a b : jsstring) :
  fst (fst (scan_twice n code lang a b))
  = fst (fst (scan n code lang a))
    ++ fst (fst (scan (length b) (snd (fst (scan n code lang a)))
                      (snd (scan n code lang a)) b)).
Proof.
  unfold scan_twice. destruct (scan n code lang a) as [[o1 c1] l1]. simpl.
  now destruct (scan (length b) c1 l1 b) as [[o2 c2] l2].
Qed.

(** Where the scan of [a] is not settled, some continuation [b] is written
    differently when it arrives in a call of its own. *)
Lemma scan_cut_differs (n : nat) : forall (a : jsstring) code lang,
  length a <= n -> settled n code a = false ->
  exists b, 
    fst (fst (scan (n + length b) code lang (a ++ b)))
    <> fst (fst (scan_twice n code lang a b)).
Proof.
  induction n as [|n IH]; intros a code lang Hlen Hs; [discriminate|].
  destruct a as [|ch a']; [discriminate|].
  cbn [settled] in Hs.
  destruct (startsWith fence (ch :: a')) eqn:Hf.
  - pose proof (language_line_length _ Hf) as Hl.
    assert (Hs3 : length (skipn 3 (ch :: a')) < length (ch :: a')).
    { destruct (startsWith_fence _ Hf) as [s3 E]. rewrite E. simpl. lia. }
    destruct code; cbn [negb] in Hs.
    + destruct (IH (skipn 3 (ch :: a')) false [] ltac:(lia) Hs) as [b Hb].
      exists b. rewrite out_scan_twice in *.
      change (S n + length b) with (S (n + length b)).
      change ((ch :: a') ++ b) with (ch :: (a' ++ b)). cbn [scan].
      change (ch :: (a' ++ b)) with ((ch :: a') ++ b).
      rewrite (startsWith_fence_app _ b Hf), Hf, (skipn_fence_app _ b Hf).
      cbn [negb].
      destruct (scan (n + length b) false [] (skipn 3 (ch :: a') ++ b)) as [[o c] l].
      destruct (scan n false [] (skipn 3 (ch :: a'))) as [[o1 c1] l1].
      cbn [fst snd] in *. intros H. apply Hb. now injection H.
    + destruct (snd (until_newline (skipn 3 (ch :: a')))) as [|c0 r0] eqn:Hr.
      * exists [120%N]. rewrite out_scan_twice.
        change (S n + length [120%N]) with (S (n + 1)).
        change ((ch :: a') ++ [120%N]) with (ch :: (a' ++ [120%N])). cbn [scan].
        change (ch :: (a' ++ [120%N])) with ((ch :: a') ++ [120%N]).
        rewrite (startsWith_fence_app _ _ Hf), Hf, (skipn_fence_app _ _ Hf).
        cbn [negb]. rewrite until_newline_open by auto.
        destruct (until_newline (skipn 3 (ch :: a'))) as [tag r].
        simpl in Hr. subst r. cbn [fst skip_newline].
        replace (n + 1) with (S n) by lia.
        assert (E0 : forall k c l, scan k c l [] = ([], c, l)) by (now intros [|k]).
        rewrite !E0. cbn [fst snd length]. cbn. discriminate.
      * destruct (IH (skip_newline (c0 :: r0)) true
                     (trim (fst (until_newline (skipn 3 (ch :: a')))))
                     ltac:(lia) Hs) as [b Hb].
        exists b. rewrite out_scan_twice in *.
        change (S n + length b) with (S (n + length b)).
        change ((ch :: a') ++ b) with (ch :: (a' ++ b)). cbn [scan].
        change (ch :: (a' ++ b)) with ((ch :: a') ++ b).
        rewrite (startsWith_fence_app _ b Hf), Hf, (skipn_fence_app _ b Hf).
        cbn [negb]. rewrite until_newline_app by (rewrite Hr; discriminate).
        rewrite Hr. rewrite skip_newline_app by discriminate.
        destruct (until_newline (skipn 3 (ch :: a'))) as [tag r].
        simpl in Hr. subst r. cbn [fst] in *.
        destruct (scan (n + length b) true (trim tag) (skip_newline (c0 :: r0) ++ b)) as [[o c] l].
        destruct (scan n true (trim tag) (skip_newline (c0 :: r0))) as [[o1 c1] l1].
        cbn [fst snd] in *. intros H. apply Hb. now injection H.
  - destruct (partial_fence (ch :: a')) eqn:Hp.
    + destruct a' as [|y [|z a'']]; cbn [partial_fence] in Hp; [| |discriminate].
      * apply N.eqb_eq in Hp. subst ch. exists [backtick; backtick].
        destruct n, code; cbn; discriminate.
      * apply andb_true_iff in Hp as [H1 H2].
        apply N.eqb_eq in H1, H2. subst ch y. exists [backtick].
        destruct n as [|[|n]], code; cbn; discriminate.
    + simpl in Hlen. destruct (IH a' code lang ltac:(lia) Hs) as [b Hb].
      exists b. rewrite out_scan_twice in *.
      change (S n + length b) with (S (n + length b)).
      change ((ch :: a') ++ b) with (ch :: (a' ++ b)). cbn [scan].
      change (ch :: (a' ++ b)) with ((ch :: a') ++ b).
      rewrite (startsWith_fence_app_no b) by (auto; discriminate).
      rewrite Hf.
      destruct (scan (n + length b) code lang (a' ++ b)) as [[o c] l].
      destruct (scan n code lang a') as [[o1 c1] l1].
      cbn [fst snd] in *. intros H. apply Hb. now injection H.
Qed.

(** [settled] is exact: the buffer can be cut after [a], whatever follows,
    if and only if the scan of [a] is settled. *)
Lemma settled_exact (a : jsstring) (code : bool) (lang : jsstring) :
  settled (length a) code a = true
  <-> forall b, scan (length a + length b) code lang (a ++ b)
                = scan_twice (length a) code lang a b.
Proof.
  split.
  - intros Hs b. now apply scan_app.
  - intros H. destruct (settled (length a) code a) eqn:Hs; [reflexivity|].
    destruct (@scan_cut_differs (length a) a code lang (le_n _) Hs) as [b Hb].
    exfalso. apply Hb. now rewrite H.
Qed.





(** The example message in one delta has the banner tagged [python]. *)
Example whole_example_banner :
  filter Sample.is_banner
    (fst (formatToken Formatter.new (concat Sample.example_deltas)))
  = [(Yellow, open_banner (lit "python")); (Yellow, close_banner)].
Proof. vm_compute. reflexivity. Qed.

(** A fence that is never closed leaves the formatter inside the code
    block. *)
Example unterminated_fence :
  snd (formatToken Formatter.new (lit "```js" ++ [newline] ++ lit "x"))
  = {| inCode := true; pending := []; currentLang := lit "js" |}.
Proof. vm_compute. reflexivity. Qed.

End FormatterFacts.

(* ================================================================== *)
(** ** The chunk decoder and the frames *)
(* ================================================================== *)

Module StreamFacts.

Import Formatter Chat.

Lemma split_nl_not_nil (s : jsstring) : split_nl s <> [].
Proof.
  induction s as [|c s IH]; simpl; [discriminate|].
  destruct (N.eqb c newline); [discriminate|].
  destruct (split_nl s); discriminate.
Qed.

Lemma split_nl_complete (s : jsstring) :
  (removelast (split_nl s), last (split_nl s) []) = complete s.
Proof.
  induction s as [|c s IH]; [reflexivity|].
  cbn [split_nl complete]. rewrite <- IH.
  pose proof (split_nl_not_nil s) as Hne.
  destruct (N.eqb c newline).
  - destruct (split_nl s) as [|l ls] eqn:E; [congruence|]. reflexivity.
  - destruct (split_nl s) as [|l ls] eqn:E; [congruence|].
    destruct ls as [|l' ls']; reflexivity.
Qed.

Lemma complete_app (a b : jsstring) :
  complete (a ++ b)
  = let (la, ra) := complete a in
    let (lb, rb) := complete (ra ++ b) in
    (la ++ lb, rb).
Proof.
  induction a as [|c a IH].
  - simpl. now destruct (complete b).
  - change ((c :: a) ++ b) with (c :: (a ++ b)). cbn [complete].
    rewrite IH. destruct (complete a) as [la ra].
    destruct (N.eqb c newline) eqn:Hc.
    + now destruct (complete (ra ++ b)) as [lb rb].
    + destruct la as [|l ls].
      * change ((c :: ra) ++ b) with (c :: (ra ++ b)). cbn [complete].
        rewrite Hc. now destruct (complete (ra ++ b)) as [[|l0 lb] rb].
      * now destruct (complete (ra ++ b)) as [lb rb].
Qed.

(** Nothing of the text is lost between the lines and the fragment. *)
Lemma complete_join (s : jsstring) :
  concat (map (fun l => l ++ [newline]) (fst (complete s))) ++ snd (complete s)
  = s.
Proof.
  induction s as [|c s IH]; [reflexivity|].
  cbn [complete]. destruct (complete s) as [ls r]. cbn [fst snd] in IH.
  destruct (N.eqb c newline) eqn:Hc.
  - apply N.eqb_eq in Hc. subst c. simpl. now rewrite IH.
  - destruct ls as [|l ls']; simpl in *; now rewrite IH.
Qed.

Lemma decode_app (a b : list byte) : forall d,
  TextDecoder.decode d (a ++ b)
  = let (t1, d1) := TextDecoder.decode d a in
    let (t2, d2) := TextDecoder.decode d1 b in
    (t1 ++ t2, d2).
Proof.
  induction a as [|x a IH]; intros d.
  - simpl. now destruct (TextDecoder.decode d b).
  - simpl. destruct (TextDecoder.step d x) as [d1 s1]. rewrite IH.
    destruct (TextDecoder.decode d1 a) as [t1 d2].
    destruct (TextDecoder.decode d2 b) as [t2 d3].
    now rewrite app_assoc.
Qed.

Lemma feed_complete (c : ChunkDecoder) (chunk : list byte) :
  feed c chunk
  = let (text, d) := TextDecoder.decode (decoder c) chunk in
    let (ls, r) := complete (buffer c ++ text) in
    (ls, {| decoder := d; buffer := r |}).
Proof.
  unfold feed. destruct (TextDecoder.decode (decoder c) chunk) as [text d].
  pose proof (split_nl_complete (buffer c ++ text)) as H.
  destruct (complete (buffer c ++ text)) as [ls r].
  injection H as -> ->. reflexivity.
Qed.

Lemma complete_rest (s : jsstring) :
  complete (snd (complete s)) = ([], snd (complete s)).
Proof.
  induction s as [|c s IH]; [reflexivity|].
  cbn [complete]. destruct (complete s) as [ls r]. cbn [snd] in IH.
  destruct (N.eqb c newline) eqn:Hc; [exact IH|].
  destruct ls as [|l ls']; [|exact IH].
  cbn [snd complete]. now rewrite IH, Hc.
Qed.

Lemma feed_fragment (c : ChunkDecoder) (chunk : list byte) :
  fragment (snd (feed c chunk)).
Proof.
  rewrite feed_complete. unfold fragment.
  destruct (TextDecoder.decode (decoder c) chunk) as [text d].
  pose proof (complete_rest (buffer c ++ text)) as H.
  now destruct (complete (buffer c ++ text)) as [ls r].
Qed.

(** Feeding the chunks one by one gives the lines and the fragment of the
    whole decoded text. *)
Lemma feed_all_complete (cs : list (list byte)) : forall c,
  fragment c ->
  feed_all c cs
  = let (text, d) := TextDecoder.decode (decoder c) (concat cs) in
    let (ls, r) := complete (buffer c ++ text) in
    (ls, {| decoder := d; buffer := r |}).
Proof.
  induction cs as [|chunk cs IH]; intros c Hc.
  - simpl. rewrite app_nil_r. unfold fragment in Hc. rewrite Hc.
    now destruct c.
  - cbn [feed_all concat]. rewrite decode_app.
    pose proof (feed_fragment c chunk) as Hc1.
    rewrite feed_complete in *.
    destruct (TextDecoder.decode (decoder c) chunk) as [t1 d1].
    destruct (complete (buffer c ++ t1)) as [l1 r1] eqn:E1.
    cbn [snd] in Hc1. rewrite (IH _ Hc1). cbn [decoder buffer].
    destruct (TextDecoder.decode d1 (concat cs)) as [t2 d2].
    rewrite app_assoc, (complete_app (buffer c ++ t1) t2), E1.
    now destruct (complete (r1 ++ t2)) as [l2 r2].
Qed.

Lemma new_decoder_fragment : fragment new_decoder.
Proof. reflexivity. Qed.

(** A two-byte character cut between two chunks, after a byte order
    mark: one line, the character whole. *)
Example split_character :
  feed_all new_decoder [[xef; xbb; xbf; xc3]; [xa9; x0a; x61]]
  = ([[233%N]],
     {| decoder := snd (TextDecoder.decode TextDecoder.new [xef; xbb; xbf]);
        buffer := [97%N] |}).
Proof. vm_compute. reflexivity. Qed.

(** *** Frames *)

Lemma frames_of_lines_app (e : Env) (a b : list jsstring) :
  frames_of_lines e (a ++ b)
  = let (fa, stop) := frames_of_lines e a in
    if stop then (fa, true)
    else let (fb, stop') := frames_of_lines e b in (fa ++ fb, stop').
Proof.
  induction a as [|raw a IH].
  - simpl. now destruct (frames_of_lines e b).
  - change ((raw :: a) ++ b) with (raw :: (a ++ b)). cbn [frames_of_lines].
    rewrite IH. destruct (frames_of_lines e a) as [fa [|]];
      destruct (parse e raw); try reflexivity;
      now destruct (frames_of_lines e b).
Qed.

(** The frames the loops go through are the frames of all the complete
    lines, cut after the first terminator. *)
Lemma frames_feed_all (e : Env) (cs : list (list byte)) : forall c,
  frames e c cs = fst (frames_of_lines e (fst (feed_all c cs))).
Proof.
  induction cs as [|chunk cs IH]; intros c; [reflexivity|].
  cbn [frames feed_all]. destruct (feed c chunk) as [lines c1].
  rewrite IH. destruct (feed_all c1 cs) as [more c2]. cbn [fst].
  rewrite frames_of_lines_app.
  destruct (frames_of_lines e lines) as [fs [|]]; [reflexivity|].
  now destruct (frames_of_lines e more).
Qed.

Lemma feed_all_single (cs : list (list byte)) (c : ChunkDecoder) :
  fragment c ->
  fst (feed_all c cs) = fst (feed_all c [concat cs]).
Proof.
  intros Hc. rewrite !feed_all_complete by auto.
  cbn [concat]. rewrite app_nil_r.
  destruct (TextDecoder.decode (decoder c) (concat cs)) as [text d].
  now destruct (complete (buffer c ++ text)).
Qed.

(** *** The executor over lines and frames *)

Lemma on_line_parse (e : Env) (raw : jsstring) (t : Turn) (w : World) :
  on_line e raw t w
  = match parse e raw with
    | Unrecognized => inr (t, w)
    | Terminator => inl (on_done e t w)
    | Delta token =>
        let (styled, f) := formatToken (formatter t) token in
        inr ({| reply := reply t ++ token; formatter := f |},
             log (Stdout styled) w)
    end.
Proof.
  unfold on_line, parse.
  destruct (negb (truthy (trim raw))); [reflexivity|].
  destruct (JS.eqb (trim raw) DONE); [reflexivity|].
  destruct (startsWith data_prefix (trim raw)); [|reflexivity].
  now destruct (truthy (delta_content e (skipn 6 (trim raw)))).
Qed.

Lemma parse_delta_truthy (e : Env) (raw token : jsstring) :
  parse e raw = Delta token -> truthy token = true.
Proof.
  unfold parse.
  destruct (negb (truthy (trim raw))); [discriminate|].
  destruct (JS.eqb (trim raw) DONE); [discriminate|].
  destruct (startsWith data_prefix (trim raw)); [|discriminate].
  destruct (truthy (delta_content e (skipn 6 (trim raw)))) eqn:H;
    [|discriminate].
  now intros [= <-].
Qed.

Lemma has_terminator_stop (e : Env) (lines : list jsstring) :
  has_terminator (fst (frames_of_lines e lines))
  = snd (frames_of_lines e lines).
Proof.
  induction lines as [|raw lines IH]; [reflexivity|].
  cbn [frames_of_lines].
  destruct (parse e raw); [| reflexivity |];
    destruct (frames_of_lines e lines) as [fs stop]; exact IH.
Qed.

Lemma deltas_truthy (e : Env) (lines : list jsstring) :
  Forall (fun d => truthy d = true) (deltas (fst (frames_of_lines e lines))).
Proof.
  induction lines as [|raw lines IH]; [constructor|].
  cbn [frames_of_lines].
  destruct (parse e raw) eqn:Hp; [| constructor |];
    destruct (frames_of_lines e lines) as [fs stop]; cbn [fst deltas] in *;
    auto.
  constructor; auto. eapply parse_delta_truthy; eauto.
Qed.

Lemma concat_truthy (ds : list jsstring) :
  ds <> [] -> Forall (fun d => truthy d = true) ds ->
  truthy (concat ds) = true.
Proof.
  destruct ds as [|d ds]; [congruence|]. intros _ H.
  inversion H as [|? ? Hd _]; subst. destruct d; [discriminate|reflexivity].
Qed.

(** The state the inner loop reaches after the deltas [ds]. *)
Lemma on_lines_running (e : Env) (lines : list jsstring) : forall t w,
  snd (frames_of_lines e lines) = false ->
  on_lines e lines t w
  = inr ({| reply := reply t ++ concat (deltas (fst (frames_of_lines e lines)));
            formatter := snd (formatAll (formatter t)
                                   (deltas (fst (frames_of_lines e lines)))) |},
         {| messages := messages w;
            trace := trace w
                     ++ writes (formatter t)
                               (deltas (fst (frames_of_lines e lines)));
            requests := requests w |}).
Proof.
  induction lines as [|raw lines IH]; intros t w Hs.
  - simpl. rewrite !app_nil_r. now destruct t, w.
  - cbn [on_lines frames_of_lines] in *. rewrite on_line_parse.
    destruct (parse e raw) as [token| |].
    + destruct (frames_of_lines e lines) as [fs stop]. cbn [fst snd] in *.
      cbn [deltas formatAll writes concat].
      destruct (formatToken (formatter t) token) as [styled f].
      rewrite (IH _ _ Hs). cbn [reply formatter messages trace requests log].
      destruct (formatAll f (deltas fs)) as [outs f'']. cbn [snd].
      now rewrite <- !app_assoc.
    + discriminate.
    + destruct (frames_of_lines e lines) as [fs stop]. cbn [fst snd] in *.
      cbn [deltas]. now rewrite (IH _ _ Hs).
Qed.

Lemma on_lines_app (e : Env) (a b : list jsstring) : forall t w,
  on_lines e (a ++ b) t w
  = match on_lines e a t w with
    | inl r => inl r
    | inr (t1, w1) => on_lines e b t1 w1
    end.
Proof.
  induction a as [|raw a IH]; intros t w; [reflexivity|].
  cbn [app on_lines]. destruct (on_line e raw t w) as [r|[t1 w1]]; auto.
Qed.

(** The executor reads the complete lines and nothing else: the fragment
    that is left in the buffer when the stream closes is not looked at. *)
Lemma on_chunks_lines (e : Env) (cs : list (list byte)) (broken : bool) :
  forall c t w,
  on_chunks e cs broken c t w
  = match on_lines e (fst (feed_all c cs)) t w with
    | inl r => r
    | inr (t1, w1) => if broken then (Threw, w1) else on_close e t1 w1
    end.
Proof.
  induction cs as [|chunk cs IH]; intros c t w; [reflexivity|].
  cbn [on_chunks feed_all]. destruct (feed c chunk) as [lines c1].
  specialize (IH c1). destruct (feed_all c1 cs) as [more c2]. cbn [fst] in *.
  rewrite on_lines_app.
  destruct (on_lines e lines t w) as [r|[t1 w1]]; auto.
Qed.

End StreamFacts.

(* ================================================================== *)
(** ** The executor and the retry loop *)
(* ================================================================== *)

Module RetryFacts.

Import Formatter Chat StreamFacts.

(** *** What an attempt does to the conversation *)

Lemma grows_refl (w : World) : grows w w.
Proof. exists []. now rewrite app_nil_r. Qed.

Lemma count_role_app (r : Role) (a b : list Message) :
  count_role r (a ++ b) = count_role r a + count_role r b.
Proof. unfold count_role. now rewrite filter_app, length_app. Qed.

Lemma grows_trans (a b c : World) : grows a b -> grows b c -> grows a c.
Proof.
  intros [t1 [E1 C1]] [t2 [E2 C2]]. exists (t1 ++ t2). split.
  - now rewrite E2, E1, app_assoc.
  - rewrite count_role_app. lia.
Qed.

Lemma grows_same (w w1 : World) : messages w1 = messages w -> grows w w1.
Proof. intros E. exists []. now rewrite app_nil_r. Qed.

Lemma grows_assistant (w : World) (s : jsstring) :
  grows w (push {| role := assistant; content := s |} w).
Proof. now exists [ {| role := assistant; content := s |} ]. Qed.

Lemma maybe_save_messages (e : Env) (w : World) :
  messages (snd (maybe_save e w)) = messages w.
Proof.
  unfold maybe_save. destruct (autosave e); [|reflexivity].
  now destruct (saveSession e (requests w) (messages w)).
Qed.

(** The save is decided by [saved], at the request count and with the
    conversation it finds. *)
Lemma maybe_save_saved (e : Env) (w : World) :
  fst (maybe_save e w) = saved e (requests w) (messages w).
Proof.
  unfold maybe_save, saved. destruct (autosave e); [|reflexivity].
  now destruct (saveSession e (requests w) (messages w)).
Qed.

Lemma on_done_grows (e : Env) (t : Turn) (w : World) :
  grows w (snd (on_done e t w)).
Proof.
  unfold on_done.
  match goal with
  | |- context [maybe_save e ?w2] =>
      pose proof (maybe_save_messages e w2) as Hm;
      destruct (maybe_save e w2) as [done w3]
  end.
  cbn [snd] in *. exists [ {| role := assistant; content := reply t |} ].
  now rewrite Hm.
Qed.

Lemma on_close_grows (e : Env) (t : Turn) (w : World) :
  grows w (snd (on_close e t w)).
Proof.
  unfold on_close.
  match goal with
  | |- context [maybe_save e ?w2] =>
      pose proof (maybe_save_messages e w2) as Hm;
      destruct (maybe_save e w2) as [done w3]
  end.
  cbn [snd] in *. unfold grows. rewrite Hm. destruct (truthy (reply t)).
  - now exists [ {| role := assistant; content := reply t |} ].
  - exists []. now rewrite app_nil_r.
Qed.

Lemma on_lines_grows (e : Env) (lines : list jsstring) : forall t w,
  match on_lines e lines t w with
  | inl r => grows w (snd r)
  | inr (_, w1) => messages w1 = messages w
  end.
Proof.
  induction lines as [|raw lines IH]; intros t w; [reflexivity|].
  cbn [on_lines]. rewrite on_line_parse.
  destruct (parse e raw) as [token| |].
  - destruct (formatToken (formatter t) token) as [styled f].
    specialize (IH {| reply := reply t ++ token; formatter := f |}
                   (log (Stdout styled) w)).
    destruct (on_lines e lines _ _) as [r|[t1 w1]]; auto.
  - apply on_done_grows.
  - apply IH.
Qed.

Lemma on_chunks_grows (e : Env) (cs : list (list byte)) (broken : bool)
  (c : ChunkDecoder) (t : Turn) (w : World) :
  grows w (snd (on_chunks e cs broken c t w)).
Proof.
  rewrite on_chunks_lines.
  pose proof (on_lines_grows e (fst (feed_all c cs)) t w) as H.
  destruct (on_lines e (fst (feed_all c cs)) t w) as [r|[t1 w1]]; auto.
  destruct broken.
  - now apply grows_same.
  - eapply grows_trans; [apply grows_same, H | apply on_close_grows].
Qed.

Lemma transport_failure_messages (e : Env) (res : Response) (w : World) :
  messages (snd (transport_failure e res w)) = messages w.
Proof. unfold transport_failure. now destruct (VERBOSE e). Qed.

Lemma streamChatOnce_grows (e : Env) (w : World) :
  grows w (snd (streamChatOnce e w)).
Proof.
  unfold streamChatOnce.
  destruct (fetch e (requests w) (messages w)) as [res|];
    [|now apply grows_same].
  destruct (res_body res) as [body|].
  - destruct (negb (res_ok res)).
    + apply grows_same. now rewrite transport_failure_messages.
    + eapply grows_trans; [|apply on_chunks_grows]. now apply grows_same.
  - apply grows_same. now rewrite transport_failure_messages.
Qed.

Lemma report_failure_messages (v : bool) (r : AttemptResult) (w : World) :
  messages (report_failure v r w) = messages w.
Proof. unfold report_failure. now destruct (_ && _). Qed.

Lemma retry_grows (e : Env) (v : bool) (left : nat) : forall attempt calls w,
  grows w (snd (retry (streamChatOnce e) v left attempt calls w)).
Proof.
  induction left as [|left IH]; intros attempt calls w; [apply grows_refl|].
  cbn [retry]. pose proof (streamChatOnce_grows e w) as H.
  destruct (streamChatOnce e w) as [[r|] w1]; cbn [snd] in *; auto.
  destruct (ok r); [exact H|].
  destruct (_ || _).
  - eapply grows_trans; [exact H|]. apply grows_same, report_failure_messages.
  - eapply grows_trans; [exact H|].
    eapply grows_trans; [|apply IH]. now apply grows_same.
Qed.

(** *** The number of calls *)

Lemma retry_calls_bound (exec : World -> Outcome * World) (v : bool)
  (left : nat) : forall attempt calls w,
  invocations (fst (retry exec v left attempt calls w)) <= calls + left.
Proof.
  induction left as [|left IH]; intros attempt calls w; cbn [retry].
  - simpl. lia.
  - destruct (exec w) as [[r|] w1]; cbn [fst invocations]; try lia.
    destruct (ok r); cbn [fst invocations]; try lia.
    destruct (_ || _); cbn [fst invocations]; try lia.
    specialize (IH (S attempt) (S calls)
                   (log (Sleep (BASE_DELAY_MS * 2 ^ Z.of_nat attempt))
                        (log (Stderr (TransientError (status_or_zero r)
                               (BASE_DELAY_MS * 2 ^ Z.of_nat attempt))) w1))).
    lia.
Qed.

Lemma retry_calls_least (exec : World -> Outcome * World) (v : bool)
  (left : nat) : forall attempt calls w,
  calls + (if Nat.eqb left 0 then 0 else 1)
  <= invocations (fst (retry exec v left attempt calls w)).
Proof.
  induction left as [|left IH]; intros attempt calls w; cbn [retry].
  - simpl. lia.
  - cbn [Nat.eqb]. destruct (exec w) as [[r|] w1]; cbn [fst invocations]; try lia.
    destruct (ok r); cbn [fst invocations]; try lia.
    destruct (_ || _); cbn [fst invocations]; try lia.
    specialize (IH (S attempt) (S calls)
                   (log (Sleep (BASE_DELAY_MS * 2 ^ Z.of_nat attempt))
                        (log (Stderr (TransientError (status_or_zero r)
                               (BASE_DELAY_MS * 2 ^ Z.of_nat attempt))) w1))).
    destruct (Nat.eqb left 0); lia.
Qed.

Lemma retry_step (exec : World -> Outcome * World) (v : bool)
  (left attempt calls : nat) (w : World) :
  retry exec v (S left) attempt calls w
  = let (o, w1) := exec w in
    match o with
    | Threw => ({| ending := Rejected; invocations := S calls |}, w1)
    | Returned r =>
        if ok r then
          ({| ending := Succeeded; invocations := S calls |}, log Prompt w1)
        else
          if negb (isRetriable (status_or_zero r)) || Nat.eqb attempt MAX_RETRIES
          then ({| ending := Failed (status_or_zero r); invocations := S calls |},
                report_failure v r w1)
          else
            retry exec v left (S attempt) (S calls)
              (log (Sleep (BASE_DELAY_MS * 2 ^ Z.of_nat attempt))
                 (log (Stderr (TransientError (status_or_zero r)
                                 (BASE_DELAY_MS * 2 ^ Z.of_nat attempt))) w1))
    end.
Proof. reflexivity. Qed.

(** A failure that is not retriable ends the loop at once, whatever the
    attempt. *)
Lemma retry_fatal (exec : World -> Outcome * World) (v : bool)
  (left attempt calls : nat) (w w1 : World) (r : AttemptResult) :
  exec w = (Returned r, w1) ->
  ok r = false ->
  isRetriable (status_or_zero r) = false ->
  retry exec v (S left) attempt calls w
  = ({| ending := Failed (status_or_zero r); invocations := S calls |},
     report_failure v r w1).
Proof. intros E Hok Hr. cbn [retry]. now rewrite E, Hok, Hr. Qed.

Lemma reported_failure_report (v : bool) (r : AttemptResult) (w : World) :
  reported_failure (trace (report_failure v r w)) = true.
Proof.
  unfold report_failure, reported_failure.
  destruct (_ && _); cbn [log trace]; rewrite !existsb_app; simpl;
    now rewrite ?orb_true_r.
Qed.




End RetryFacts.

(* ================================================================== *)
(** ** The properties of the specification *)
(* ================================================================== *)

Module Properties.

Import Formatter Chat FormatterFacts StreamFacts RetryFacts.

(* ------------------------------------------------------------------ *)
(** *** The formatter *)




(** C2, as the code has it: for the deltas of the example the output is the
    prose [Here:] and a newline, one opening banner whose language tag is
    [py] (the part of the tag that came with the fence marker), then [thon],
    a newline, [print(1)] and a newline in code style, one closing banner,
    and a newline and [done] in prose style. *)
Theorem example_rendering :
  fst (formatAll Formatter.new Sample.example_deltas)
  = Sample.prose (lit "Here:" ++ [newline])
    ++ [(Yellow, open_banner (lit "py"))]
    ++ Sample.code (lit "thon" ++ [newline] ++ lit "print(1)" ++ [newline])
    ++ [(Yellow, close_banner)]
    ++ Sample.prose (newline :: lit "done").
Proof. vm_compute. reflexivity. Qed.

(** C2 as stated fails: the banners of the example are one opening banner
    tagged [py] and one closing banner; no piece of the output is the
    banner tagged [python]. *)
Lemma example_banner_not_python :
  filter Sample.is_banner (fst (formatAll Formatter.new Sample.example_deltas))
  = [(Yellow, open_banner (lit "py")); (Yellow, close_banner)]
  /\ existsb (fun p => JS.eqb (snd p) (open_banner (lit "python")))
             (fst (formatAll Formatter.new Sample.example_deltas)) = false
  /\ open_banner (lit "py") <> open_banner (lit "python").
Proof.
  repeat split; try (vm_compute; reflexivity).
  intros H. vm_compute in H. discriminate H.
Qed.

(* ------------------------------------------------------------------ *)
(** *** The chunk decoder and the frames *)

(** C3, as the code has it.  The chunk decoder keeps the unterminated
    fragment between chunks: the lines it delivers over all the chunks are,
    in order, the newline-terminated lines of the whole decoded text, the
    buffer at the end is what follows the last newline, and the lines and
    the buffer together are the whole text.  There is no flush: the
    executor reads the delivered lines and nothing else, so what is in the
    buffer when the stream closes is not made a line. *)
Theorem chunk_decoder_lines (e : Env) (cs : list (list byte)) :
  fst (feed_all new_decoder cs)
  = removelast (split_nl (fst (TextDecoder.decode TextDecoder.new (concat cs))))
  /\ buffer (snd (feed_all new_decoder cs))
     = last (split_nl (fst (TextDecoder.decode TextDecoder.new (concat cs)))) []
  /\ concat (map (fun l => l ++ [newline]) (fst (feed_all new_decoder cs)))
       ++ buffer (snd (feed_all new_decoder cs))
     = fst (TextDecoder.decode TextDecoder.new (concat cs))
  /\ (forall broken t w,
        on_chunks e cs broken new_decoder t w
        = match on_lines e (fst (feed_all new_decoder cs)) t w with
          | inl r => r
          | inr (t1, w1) => if broken then (Threw, w1) else on_close e t1 w1
          end).
Proof.
  assert (H : fst (feed_all new_decoder cs)
              = removelast (split_nl (fst (TextDecoder.decode TextDecoder.new (concat cs))))
              /\ buffer (snd (feed_all new_decoder cs))
                 = last (split_nl (fst (TextDecoder.decode TextDecoder.new (concat cs)))) []
              /\ concat (map (fun l => l ++ [newline]) (fst (feed_all new_decoder cs)))
                   ++ buffer (snd (feed_all new_decoder cs))
                 = fst (TextDecoder.decode TextDecoder.new (concat cs))).
  { rewrite (feed_all_complete cs new_decoder_fragment).
    cbn [decoder buffer new_decoder app].
    destruct (TextDecoder.decode TextDecoder.new (concat cs)) as [text d].
    pose proof (split_nl_complete text) as Hc.
    pose proof (complete_join text) as Hj.
    destruct (complete text) as [ls r]. injection Hc as Hl Hr.
    cbn [fst snd buffer] in *. repeat split; auto. }
  destruct H as (H1 & H2 & H3). repeat split; auto.
  intros broken t w. apply on_chunks_lines.
Qed.

(** C3 as stated fails: of two data frames the second has no newline after
    it; it stays in the buffer, where it would parse as the delta [lo], and
    the reply that is appended is [Hel] alone. *)
Lemma last_line_without_newline_lost :
  fst (feed_all new_decoder Sample.cut_last)
  = [litq "data: {'choices':[{'delta':{'content':'Hel'}}]}"]
  /\ parse (Sample.env (fun _ => None))
           (buffer (snd (feed_all new_decoder Sample.cut_last)))
     = Delta (lit "lo")
  /\ frames (Sample.env (fun _ => None)) new_decoder Sample.cut_last
     = [Delta (lit "Hel")]
  /\ messages (snd (streamChatOnce
                      (Sample.env (fun _ => Some (Sample.streaming Sample.cut_last)))
                      Sample.start))
     = messages Sample.start ++ [ {| role := assistant; content := lit "Hel" |} ].
Proof. repeat split; vm_compute; reflexivity. Qed.

(** C4: however the bytes of a body are cut into chunks, the frames the
    executor goes through are those of the body delivered as one chunk; and
    so are its result and everything it does. *)
Theorem chunk_boundary_invariance (e : Env) (cs : list (list byte)) :
  frames e new_decoder cs = frames e new_decoder [concat cs]
  /\ (forall broken t w,
        on_chunks e cs broken new_decoder t w
        = on_chunks e [concat cs] broken new_decoder t w).
Proof.
  pose proof (feed_all_single cs new_decoder_fragment) as H. split.
  - now rewrite !frames_feed_all, H.
  - intros broken t w. now rewrite !on_chunks_lines, H.
Qed.

(* ------------------------------------------------------------------ *)
(** *** The executor *)

(** A stream that is read to its end without a terminator. *)
Lemma streamChatOnce_closed (e : Env) (w : World) (res : Response)
  (cs : list (list byte)) :
  fetch e (requests w) (messages w) = Some res ->
  res_ok res = true ->
  res_body res = Some {| chunks := cs; fails := false |} ->
  has_terminator (frames e new_decoder cs) = false ->
  streamChatOnce e w
  = on_close e
      {| reply := concat (deltas (frames e new_decoder cs));
         formatter := snd (formatAll Formatter.new
                                     (deltas (frames e new_decoder cs))) |}
      {| messages := messages w;
         trace := (trace w ++ [Fetch (messages w); Stdout gpt_prompt])
                  ++ writes Formatter.new (deltas (frames e new_decoder cs));
         requests := S (requests w) |}.
Proof.
  intros Hf Hok Hb Ht. unfold streamChatOnce. rewrite Hf, Hb, Hok.
  cbn [negb chunks fails]. rewrite on_chunks_lines.
  rewrite frames_feed_all in *. rewrite has_terminator_stop in Ht.
  rewrite (on_lines_running e _ _ _ Ht).
  cbn [reply formatter new_turn messages trace requests log app].
  now rewrite <- (app_assoc (trace w) [Fetch (messages w)] [Stdout gpt_prompt]).
Qed.

(** C9: when the response is not successful or has no body, the executor
    returns [ok = false] with the status and the error text of the response,
    the conversation is as it was, and nothing was written to the terminal
    output: the trace gained the request and, under [VERBOSE], one line on
    the error output. *)
Theorem transport_failure_atomic (e : Env) (w : World) (res : Response) :
  fetch e (requests w) (messages w) = Some res ->
  res_ok res = false \/ res_body res = None ->
  fst (streamChatOnce e w)
  = Returned {| ok := false; status := Some (res_status res);
                errorText := Some (res_text res) |}
  /\ messages (snd (streamChatOnce e w)) = messages w
  /\ trace (snd (streamChatOnce e w))
     = trace w
       ++ Fetch (messages w)
          :: (if VERBOSE e
              then [Stderr (HttpError (res_status res) (res_statusText res)
                                      (res_text res))]
              else [])
  /\ wrote_stdout (trace (snd (streamChatOnce e w))) = wrote_stdout (trace w)
  /\ count_role assistant (messages (snd (streamChatOnce e w)))
     = count_role assistant (messages w).
Proof.
  intros Hf Hbad.
  assert (E : streamChatOnce e w
              = transport_failure e res
                  {| messages := messages w;
                     trace := trace w ++ [Fetch (messages w)];
                     requests := S (requests w) |}).
  { unfold streamChatOnce. rewrite Hf.
    destruct (res_body res) as [body|]; [|reflexivity].
    destruct Hbad as [H|H]; [now rewrite H | discriminate]. }
  rewrite E. unfold transport_failure, wrote_stdout.
  destruct (VERBOSE e); cbn [fst snd log messages trace];
    rewrite <- ?app_assoc, ?existsb_app; cbn [app existsb];
    rewrite ?orb_false_r; repeat split; reflexivity.
Qed.

(** A response with status 500 and the conversation at its start. *)
Lemma transport_failure_atomic_500 :
  messages (snd (streamChatOnce
                   (Sample.env (fun _ => Some (Sample.failing 500)))
                   Sample.start))
  = messages Sample.start.
Proof.
  exact (proj1 (proj2 (transport_failure_atomic
                         (Sample.env (fun _ => Some (Sample.failing 500)))
                         Sample.start (res := Sample.failing 500)
                         eq_refl (or_introl eq_refl)))).
Defined.

(* ------------------------------------------------------------------ *)
(** *** The retry controller *)

(** C8: a status is retriable exactly when it is 429 or at least 500.  In
    the loop a failed attempt whose status is not retriable is the last
    call of the executor, whatever the attempt; one whose status is
    retriable is followed by the next attempt unless it was the last one
    allowed. *)
Theorem failure_classification (s : Z) :
  (isRetriable s = true <-> (s = 429 \/ 500 <= s)%Z)
  /\ (forall exec v left attempt calls w w1 r,
        exec w = (Returned r, w1) -> ok r = false -> status r = Some s ->
        isRetriable s = false ->
        retry exec v (S left) attempt calls w
        = ({| ending := Failed s; invocations := S calls |},
           report_failure v r w1))
  /\ (forall exec v left attempt calls w w1 r,
        exec w = (Returned r, w1) -> ok r = false -> status r = Some s ->
        isRetriable s = true -> attempt <> MAX_RETRIES ->
        retry exec v (S left) attempt calls w
        = retry exec v left (S attempt) (S calls)
            (log (Sleep (BASE_DELAY_MS * 2 ^ Z.of_nat attempt))
               (log (Stderr (TransientError s
                               (BASE_DELAY_MS * 2 ^ Z.of_nat attempt))) w1))).
Proof.
  repeat split.
  - unfold isRetriable, TRANSIENT_CODES. cbn [existsb].
    rewrite orb_false_r, orb_true_iff, Z.eqb_eq, Z.leb_le. tauto.
  - unfold isRetriable, TRANSIENT_CODES. cbn [existsb].
    rewrite orb_false_r, orb_true_iff, Z.eqb_eq, Z.leb_le. tauto.
  - intros exec v left attempt calls w w1 r E Hok Hs Hr.
    assert (Hz : status_or_zero r = s) by (unfold status_or_zero; now rewrite Hs).
    rewrite (@retry_fatal exec v left attempt calls w w1 r E Hok), Hz; auto.
    now rewrite Hz.
  - intros exec v left attempt calls w w1 r E Hok Hs Hr Hne.
    assert (Hz : status_or_zero r = s) by (unfold status_or_zero; now rewrite Hs).
    rewrite retry_step, E, Hok, Hz, Hr.
    apply Nat.eqb_neq in Hne. now rewrite Hne.
Qed.

(** Status 400 at the first attempt of a run. *)
Lemma failure_classification_400 :
  isRetriable 400 = false
  /\ fst (askGPTStreamWithRetry
            (Sample.env (fun _ => Some (Sample.failing 400))) [] Sample.start)
     = {| ending := Failed 400; invocations := 1 |}.
Proof.
  split; [reflexivity|].
  exact (f_equal fst
           (proj1 (proj2 (failure_classification 400))
              (streamChatOnce (Sample.env (fun _ => Some (Sample.failing 400))))
              false MAX_RETRIES 0 0 (ask [] Sample.start) _ _
              eq_refl eq_refl eq_refl eq_refl)).
Defined.



(** C10: a failed result with no status is given status 0, which is not
    retriable: the run ends after that one call of the executor with the
    failure report. *)
Theorem absent_status_is_fatal (exec : World -> Outcome * World) (v : bool)
  (userText : jsstring) (w w1 : World) (r : AttemptResult) :
  exec (ask userText w) = (Returned r, w1) ->
  ok r = false ->
  status r = None ->
  status_or_zero r = 0%Z
  /\ isRetriable 0 = false
  /\ run exec v userText w
     = ({| ending := Failed 0; invocations := 1 |}, report_failure v r w1)
  /\ reported_failure (trace (snd (run exec v userText w))) = true.
Proof.
  intros E Hok Hs.
  assert (Hz : status_or_zero r = 0%Z) by (unfold status_or_zero; now rewrite Hs).
  assert (Hrun : run exec v userText w
                 = ({| ending := Failed 0; invocations := 1 |},
                    report_failure v r w1)).
  { unfold run. rewrite (@retry_fatal exec v MAX_RETRIES 0 0 _ w1 r E Hok).
    - now rewrite Hz.
    - now rewrite Hz. }
  repeat split; auto. rewrite Hrun. apply reported_failure_report.
Qed.

(** An executor that returns [{ ok: false }] and nothing else. *)
Lemma absent_status_is_fatal_run :
  run Sample.no_status false [] Sample.start
  = ({| ending := Failed 0; invocations := 1 |},
     report_failure false {| ok := false; status := None; errorText := None |}
                    (ask [] Sample.start)).
Proof.
  exact (proj1 (proj2 (proj2 (absent_status_is_fatal
           Sample.no_status false [] Sample.start eq_refl eq_refl eq_refl)))).
Defined.

(** C6: a run appends exactly one user message, the one it was called
    with, right after the conversation it found; whatever follows it in the
    conversation has the assistant role.  This holds for every network and
    every number of attempts, from 1 to [MAX_RETRIES + 1]. *)
Theorem single_user_append (e : Env) (userText : jsstring) (w : World) :
  count_role user (messages (snd (askGPTStreamWithRetry e userText w)))
  = S (count_role user (messages w))
  /\ (exists tail,
        messages (snd (askGPTStreamWithRetry e userText w))
        = messages w ++ {| role := user; content := userText |} :: tail
        /\ count_role user tail = 0)
  /\ 1 <= invocations (fst (askGPTStreamWithRetry e userText w))
       <= MAX_RETRIES + 1.
Proof.
  unfold askGPTStreamWithRetry, run.
  destruct (retry_grows e (VERBOSE e) (S MAX_RETRIES) 0 0 (ask userText w))
    as [tail [E C]].
  cbn [ask push messages] in E. rewrite <- app_assoc in E. cbn [app] in E.
  split; [|split].
  - rewrite E, count_role_app. change (_ :: tail) with ([ {| role := user; content := userText |} ] ++ tail).
    rewrite count_role_app, C. cbn. lia.
  - now exists tail.
  - split.
    + apply (@retry_calls_least (streamChatOnce e) (VERBOSE e) (S MAX_RETRIES) 0 0).
    + pose proof (@retry_calls_bound (streamChatOnce e) (VERBOSE e)
                    (S MAX_RETRIES) 0 0 (ask userText w)).
      lia.
Qed.

Lemma reported_failure_app (a b : list Event) :
  reported_failure (a ++ b) = reported_failure a || reported_failure b.
Proof. apply existsb_app. Qed.

Lemma maybe_save_report (e : Env) (w : World) :
  reported_failure (trace (snd (maybe_save e w)))
  = reported_failure (trace w).
Proof.
  unfold maybe_save. destruct (autosave e); [|reflexivity].
  destruct (saveSession e (requests w) (messages w)); [|reflexivity].
  cbn [snd log trace]. rewrite !reported_failure_app. cbn.
  now rewrite !orb_false_r.
Qed.

Lemma writes_no_report (ds : list jsstring) : forall f,
  reported_failure (writes f ds) = false.
Proof.
  induction ds as [|d ds IH]; intros f; [reflexivity|].
  cbn [writes]. destruct (formatToken f d) as [out f']. apply IH.
Qed.

(** C7, for a stream that closes and a save that does not fail.  When the
    response is successful and its stream delivers at least one delta and
    then closes, with no error and no terminator frame, the executor
    appends one assistant message, the deltas joined in order.  It then
    returns [ok = true], and the run that made the call ends in success
    after that one call with no failure report, when [autosave] is off or
    the session is saved; the result is decided by that save alone. *)
Theorem partial_output_preserved (e : Env) (userText : jsstring) (w : World)
  (res : Response) (cs : list (list byte)) :
  fetch e (requests w) (messages (ask userText w)) = Some res ->
  res_ok res = true ->
  res_body res = Some {| chunks := cs; fails := false |} ->
  has_terminator (frames e new_decoder cs) = false ->
  deltas (frames e new_decoder cs) <> [] ->
  messages (snd (streamChatOnce e (ask userText w)))
  = messages (ask userText w)
    ++ [ {| role := assistant;
            content := concat (deltas (frames e new_decoder cs)) |} ]
  /\ messages (snd (askGPTStreamWithRetry e userText w))
     = messages w
       ++ [ {| role := user; content := userText |};
            {| role := assistant;
               content := concat (deltas (frames e new_decoder cs)) |} ]
  /\ fst (streamChatOnce e (ask userText w))
     = (if saved e (S (requests w))
             (messages w
              ++ [ {| role := user; content := userText |};
                   {| role := assistant;
                      content := concat (deltas (frames e new_decoder cs)) |} ])
        then Returned ok_result else Threw)
  /\ fst (askGPTStreamWithRetry e userText w)
     = {| ending := if saved e (S (requests w))
                         (messages w
                          ++ [ {| role := user; content := userText |};
                               {| role := assistant;
                                  content := concat (deltas (frames e new_decoder cs)) |} ])
                    then Succeeded else Rejected;
          invocations := 1 |}
  /\ reported_failure (trace (snd (askGPTStreamWithRetry e userText w)))
     = reported_failure (trace w).
Proof.
  intros Hf Hok Hb Ht Hds.
  pose proof (@streamChatOnce_closed e (ask userText w) res cs Hf Hok Hb Ht) as E.
  assert (Hr : truthy (concat (deltas (frames e new_decoder cs))) = true).
  { apply concat_truthy; auto. rewrite frames_feed_all. apply deltas_truthy. }
  unfold on_close in E. cbn [reply] in E. rewrite Hr in E.
  unfold askGPTStreamWithRetry, run. rewrite retry_step, E.
  match goal with
  | |- context [maybe_save e ?w2] =>
      pose proof (maybe_save_messages e w2) as Hm;
      pose proof (maybe_save_saved e w2) as Hs;
      pose proof (maybe_save_report e w2) as Hp;
      destruct (maybe_save e w2) as [done w3]
  end.
  cbn [fst snd log push ask messages trace requests] in *.
  rewrite <- app_assoc in Hm, Hs. cbn [app] in Hm, Hs.
  rewrite !reported_failure_app, writes_no_report in Hp. cbn in Hp.
  rewrite !orb_false_r in Hp. rewrite <- Hs.
  destruct done; cbn [ok ok_result fst snd log messages trace];
    rewrite ?reported_failure_app, Hm, Hp; cbn;
    rewrite ?orb_false_r, <- ?app_assoc; cbn [app]; repeat split; reflexivity.
Qed.

(** A stream of two data frames, the second cut inside its payload, that
    closes with no terminator: the reply is the two deltas joined. *)
Lemma partial_output_preserved_two_deltas :
  messages (snd (askGPTStreamWithRetry
                   (Sample.env (fun _ => Some (Sample.streaming Sample.two_deltas)))
                   (lit "hi") Sample.start))
  = messages Sample.start
    ++ [ {| role := user; content := lit "hi" |};
         {| role := assistant; content := lit "Hello" |} ].
Proof.
  exact (proj1 (proj2 (partial_output_preserved
           (Sample.env (fun _ => Some (Sample.streaming Sample.two_deltas)))
           (lit "hi") Sample.start
           (res := Sample.streaming Sample.two_deltas)
           (cs := Sample.two_deltas)
           eq_refl eq_refl eq_refl eq_refl
           (fun H => match H in _ = l return match l with [] => False | _ => True end
                     with eq_refl => I end)))).
Defined.

(** C7 as stated fails.  With [autosave] on and a session file that cannot
    be written, the same stream of two deltas has its reply appended but
    the executor throws and the run does not end in success; and when the
    stream ends with an error after the two deltas, the executor throws and
    nothing is appended. *)
Lemma partial_output_not_always_success :
  askGPTStreamWithRetry
    (Sample.env_unsaved (fun _ => Some (Sample.streaming Sample.two_deltas)))
    (lit "hi") Sample.start
  = ({| ending := Rejected; invocations := 1 |},
     {| messages := messages Sample.start
                    ++ [ {| role := user; content := lit "hi" |};
                         {| role := assistant; content := lit "Hello" |} ];
        trace := [ Fetch (messages Sample.start
                          ++ [ {| role := user; content := lit "hi" |} ]);
                   Stdout gpt_prompt;
                   Stdout (Sample.prose (lit "Hel"));
                   Stdout (Sample.prose (lit "lo"));
                   Stdout [(Plain, [newline; newline])] ];
        requests := 1 |})
  /\ fst (streamChatOnce
            (Sample.env_unsaved
               (fun _ => Some (Sample.streaming Sample.two_deltas)))
            (ask (lit "hi") Sample.start))
     = Threw
  /\ fst (askGPTStreamWithRetry
            (Sample.env (fun _ => Some (Sample.breaking Sample.two_deltas)))
            (lit "hi") Sample.start)
     = {| ending := Rejected; invocations := 1 |}
  /\ messages (snd (askGPTStreamWithRetry
                      (Sample.env (fun _ => Some (Sample.breaking Sample.two_deltas)))
                      (lit "hi") Sample.start))
     = messages Sample.start ++ [ {| role := user; content := lit "hi" |} ].
Proof. repeat split; vm_compute; reflexivity. Qed.

End Properties.

(* ================================================================== *)
(** ** More on the formatter *)
(* ================================================================== *)

Module FormatterMore.

Import Formatter Observe FormatterFacts.

Lemma scan_nil (n : nat) (code : bool) (lang : jsstring) :
  scan n code lang [] = ([], code, lang).
Proof. now destruct n. Qed.

Lemma scan_no_fence (n : nat) : forall s code lang,
  length s <= n -> contains_fence s = false ->
  scan n code lang s
  = (map (fun c => (if code then Reset else Cyan, [c])) s, code, lang).
Proof.
  induction n as [|n IH]; intros s code lang Hlen Hc.
  - destruct s; [reflexivity | simpl in Hlen; lia].
  - destruct s as [|ch s']; [reflexivity|].
    cbn [contains_fence] in Hc. apply orb_false_iff in Hc as [Hf Hc].
    cbn [scan]. rewrite Hf. simpl in Hlen.
    rewrite (IH s' code lang) by (auto; lia). reflexivity.
Qed.

(** X1.  A delta that holds no complete fence marker is written out as it
    is, character by character in the style of the state, inside a code
    block as well as outside, and leaves the formatter as it was. *)
Theorem plain_delta_verbatim (f : CodeBlockFormatter) (d : jsstring) :
  pending f = [] ->
  contains_fence d = false ->
  formatToken f d
  = (map (fun c => (if inCode f then Reset else Cyan, [c])) d, f)
  /\ unstyled (fst (formatToken f d)) = d.
Proof.
  intros Hp Hc.
  assert (E : formatToken f d
              = (map (fun c => (if inCode f then Reset else Cyan, [c])) d, f)).
  { unfold formatToken. rewrite Hp. cbn [app].
    rewrite scan_no_fence by auto. destruct f as [c p l].
    simpl in *. now subst p. }
  split; [exact E|]. rewrite E. cbn [fst]. unfold unstyled.
  rewrite map_map. cbn [snd]. clear. induction d as [|c d IH]; simpl; congruence.
Qed.

(** Two backticks in prose stay two backticks. *)
Lemma plain_delta_verbatim_two_backticks :
  unstyled (fst (formatToken Formatter.new (lit "a``b"))) = lit "a``b".
Proof.
  exact (proj2 (plain_delta_verbatim Formatter.new (lit "a``b")
                  eq_refl eq_refl)).
Defined.

Lemma banners_app (a b : Styled) : banners (a ++ b) = banners a ++ banners b.
Proof.
  induction a as [|p a IH]; [reflexivity|].
  cbn [app banners]. destruct (banner_kind p); now rewrite IH.
Qed.

Lemma paired_app (a b : list bool) : forall code,
  paired code (a ++ b)
  = match paired code a with
    | Some code' => paired code' b
    | None => None
    end.
Proof.
  induction a as [|x a IH]; intros code; [reflexivity|].
  cbn [app paired]. destruct (Bool.eqb x code); auto.
Qed.

Lemma scan_paired (n : nat) : forall s code lang,
  paired code (banners (fst (fst (scan n code lang s))))
  = Some (snd (fst (scan n code lang s))).
Proof.
  induction n as [|n IH]; intros s code lang; [reflexivity|].
  destruct s as [|ch s']; [reflexivity|].
  cbn [scan]. destruct (startsWith fence (ch :: s')).
  - destruct code; cbn [negb].
    + specialize (IH (skipn 3 (ch :: s')) false []).
      destruct (scan n false [] (skipn 3 (ch :: s'))) as [[o c] l].
      exact IH.
    + destruct (until_newline (skipn 3 (ch :: s'))) as [tag r].
      specialize (IH (skip_newline r) true (trim tag)).
      destruct (scan n true (trim tag) (skip_newline r)) as [[o c] l].
      exact IH.
  - specialize (IH s' code lang).
    destruct (scan n code lang s') as [[o c] l].
    cbn [fst snd banners] in *. now destruct code.
Qed.

Lemma paired_counts (bs : list bool) : forall code code',
  paired code bs = Some code' ->
  count_occ bool_dec bs true + (if code then 1 else 0)
  = count_occ bool_dec bs false + (if code' then 1 else 0).
Proof.
  induction bs as [|b bs IH]; intros code code' H.
  - injection H as <-. reflexivity.
  - cbn [paired] in H. destruct b, code; cbn [Bool.eqb] in H;
      try discriminate; specialize (IH _ _ H); simpl in *; lia.
Qed.

(** X2.  Over any sequence of deltas, from any state, the banners that are
    written pair up: an opening banner is written outside a code block only
    and a closing one inside only, so they alternate, and the formatter ends
    inside a code block exactly when one more opening banner than closing
    banners was written. *)
Theorem banners_pair_up (f : CodeBlockFormatter) (deltas : list jsstring) :
  paired (inCode f) (banners (fst (formatAll f deltas)))
  = Some (inCode (snd (formatAll f deltas)))
  /\ count_occ bool_dec (banners (fst (formatAll f deltas))) true
     + (if inCode f then 1 else 0)
     = count_occ bool_dec (banners (fst (formatAll f deltas))) false
       + (if inCode (snd (formatAll f deltas)) then 1 else 0).
Proof.
  assert (H : paired (inCode f) (banners (fst (formatAll f deltas)))
              = Some (inCode (snd (formatAll f deltas)))).
  { revert f. induction deltas as [|d ds IH]; intros f; [reflexivity|].
    cbn [formatAll]. unfold formatToken.
    pose proof (scan_paired (length (pending f ++ d)) (pending f ++ d)
                  (inCode f) (currentLang f)) as Hs.
    destruct (scan _ _ _ _) as [[o c] l]. cbn [fst snd] in Hs.
    specialize (IH {| inCode := c; pending := []; currentLang := l |}).
    destruct (formatAll _ ds) as [outs f'']. cbn [fst snd inCode] in *.
    now rewrite banners_app, paired_app, Hs. }
  split; [exact H | now apply paired_counts].
Qed.

Lemma scan_lang (n : nat) : forall s code lang,
  (code = false -> lang = []) ->
  snd (fst (scan n code lang s)) = false -> snd (scan n code lang s) = [].
Proof.
  induction n as [|n IH]; intros s code lang Hin; [exact Hin|].
  destruct s as [|ch s']; [exact Hin|].
  cbn [scan]. destruct (startsWith fence (ch :: s')).
  - destruct code; cbn [negb].
    + specialize (@IH (skipn 3 (ch :: s')) false [] (fun _ => eq_refl)).
      now destruct (scan n false [] (skipn 3 (ch :: s'))) as [[o c] l].
    + destruct (until_newline (skipn 3 (ch :: s'))) as [tag r].
      assert (Ht : true = false -> trim tag = []) by discriminate.
      specialize (@IH (skip_newline r) true (trim tag) Ht).
      now destruct (scan n true (trim tag) (skip_newline r)) as [[o c] l].
  - specialize (@IH s' code lang Hin).
    now destruct (scan n code lang s') as [[o c] l].
Qed.

(** X3.  Whatever deltas a fresh formatter is fed, it holds a language tag
    only while it is inside a code block: outside, [currentLang] is
    empty. *)
Theorem language_only_in_code (deltas : list jsstring) :
  inCode (snd (formatAll Formatter.new deltas)) = false ->
  currentLang (snd (formatAll Formatter.new deltas)) = [].
Proof.
  assert (H : forall f, (inCode f = false -> currentLang f = []) ->
              inCode (snd (formatAll f deltas)) = false ->
              currentLang (snd (formatAll f deltas)) = []).
  { induction deltas as [|d ds IH]; intros f Hf; [exact Hf|].
    cbn [formatAll]. unfold formatToken.
    pose proof (@scan_lang (length (pending f ++ d)) (pending f ++ d)
                  (inCode f) (currentLang f) Hf) as Hs.
    destruct (scan _ _ _ _) as [[o c] l]. cbn [fst snd] in Hs.
    specialize (IH {| inCode := c; pending := []; currentLang := l |} Hs).
    now destruct (formatAll _ ds) as [outs f'']. }
  apply H. reflexivity.
Qed.

(** A block that is opened and closed. *)
Lemma language_only_in_code_closed :
  currentLang (snd (formatAll Formatter.new Sample.line_deltas)) = [].
Proof.
  exact (language_only_in_code Sample.line_deltas eq_refl).
Defined.

End FormatterMore.

(* ================================================================== *)
(** ** More on the executor *)
(* ================================================================== *)

Module StreamMore.

Import Formatter Chat Observe StreamFacts.

(** *** ASCII bodies *)

Lemma step_ascii (d : TextDecoder.t) (b : byte) :
  TextDecoder.bytes_needed d = 0%N ->
  (Byte.to_N b < 128)%N ->
  TextDecoder.step d b = (after_character, [Byte.to_N b]).
Proof.
  intros Hn Hb. unfold TextDecoder.step, TextDecoder.handler, TextDecoder.lead.
  rewrite Hn. cbn [N.eqb].
  assert (H127 : (Byte.to_N b <=? 127)%N = true) by (apply N.leb_le; lia).
  rewrite H127. cbn [TextDecoder.serialize TextDecoder.idle TextDecoder.bom_seen].
  assert (Hcu : TextDecoder.code_units (Byte.to_N b) = [Byte.to_N b]).
  { unfold TextDecoder.code_units.
    assert (H : (Byte.to_N b <? 65536)%N = true) by (apply N.ltb_lt; lia).
    now rewrite H. }
  assert (Hbom : N.eqb (Byte.to_N b) 65279 = false) by (apply N.eqb_neq; lia).
  destruct (TextDecoder.bom_seen d) eqn:Hs;
    cbn [TextDecoder.code_point TextDecoder.bytes_seen TextDecoder.bytes_needed
         TextDecoder.lower TextDecoder.upper TextDecoder.bom_seen];
    rewrite ?Hbom, Hcu; unfold TextDecoder.idle, after_character;
    rewrite ?Hs; reflexivity.
Qed.

Lemma decode_ascii (bs : list byte) : forall d,
  TextDecoder.bytes_needed d = 0%N ->
  Forall (fun b => (Byte.to_N b < 128)%N) bs ->
  fst (TextDecoder.decode d bs) = map Byte.to_N bs.
Proof.
  induction bs as [|b bs IH]; intros d Hn Hall; [reflexivity|].
  inversion Hall as [|? ? Hb Hrest]; subst.
  cbn [TextDecoder.decode map]. rewrite (step_ascii d b Hn Hb).
  specialize (IH after_character eq_refl Hrest).
  destruct (TextDecoder.decode after_character bs) as [s2 d2].
  cbn [fst] in *. now rewrite IH.
Qed.

(** X4.  A body of ASCII bytes, however it is cut into chunks, is decoded
    byte for byte, and the lines the executor reads are the pieces of the
    bytes between the bytes 10; what follows the last byte 10 stays in the
    buffer. *)
Theorem ascii_body_lines (cs : list (list byte)) :
  Forall (fun b => (Byte.to_N b < 128)%N) (concat cs) ->
  fst (feed_all new_decoder cs)
  = removelast (split_nl (map Byte.to_N (concat cs)))
  /\ buffer (snd (feed_all new_decoder cs))
     = last (split_nl (map Byte.to_N (concat cs))) [].
Proof.
  intros Hall.
  pose proof (decode_ascii TextDecoder.new eq_refl Hall) as Hd.
  rewrite (feed_all_complete cs new_decoder_fragment).
  cbn [decoder buffer new_decoder app].
  destruct (TextDecoder.decode TextDecoder.new (concat cs)) as [text d].
  cbn [fst] in Hd. subst text.
  pose proof (split_nl_complete (map Byte.to_N (concat cs))) as Hc.
  destruct (complete (map Byte.to_N (concat cs))) as [ls r].
  injection Hc as -> ->. now split.
Qed.

(** Two data frames, the second cut inside its payload. *)
Lemma ascii_body_lines_two_deltas :
  fst (feed_all new_decoder Sample.two_deltas)
  = removelast (split_nl (map Byte.to_N (concat Sample.two_deltas))).
Proof.
  refine (proj1 (ascii_body_lines Sample.two_deltas _)).
  vm_compute. repeat constructor.
Defined.

(** *** The terminator *)

Lemma feed_all_app (a b : list (list byte)) : forall c,
  fst (feed_all c (a ++ b))
  = fst (feed_all c a) ++ fst (feed_all (snd (feed_all c a)) b).
Proof.
  induction a as [|chunk a IH]; intros c; [reflexivity|].
  cbn [app feed_all]. destruct (feed c chunk) as [lines c1].
  specialize (IH c1).
  destruct (feed_all c1 (a ++ b)) as [l1 c2].
  destruct (feed_all c1 a) as [l2 c3]. cbn [fst snd] in *.
  rewrite IH. now rewrite app_assoc.
Qed.

(** The inner loop at the terminator: the deltas before it have been
    written and joined, what follows it is not read. *)
Lemma on_lines_done (e : Env) (lines : list jsstring) : forall t w,
  snd (frames_of_lines e lines) = true ->
  on_lines e lines t w
  = inl (on_done e
           {| reply := reply t
                       ++ concat (deltas (fst (frames_of_lines e lines)));
              formatter := snd (formatAll (formatter t)
                                  (deltas (fst (frames_of_lines e lines)))) |}
           {| messages := messages w;
              trace := trace w
                       ++ writes (formatter t)
                            (deltas (fst (frames_of_lines e lines)));
              requests := requests w |}).
Proof.
  induction lines as [|raw lines IH]; intros t w Hs; [discriminate|].
  cbn [on_lines frames_of_lines] in *. rewrite on_line_parse.
  destruct (parse e raw) as [token| |].
  - destruct (frames_of_lines e lines) as [fs stop]. cbn [fst snd] in *.
    cbn [deltas formatAll writes concat].
    destruct (formatToken (formatter t) token) as [styled f].
    rewrite (IH _ _ Hs). cbn [reply formatter messages trace requests log].
    destruct (formatAll f (deltas fs)) as [outs f'']. cbn [snd].
    now rewrite <- !app_assoc.
  - cbn [fst deltas concat formatAll writes snd]. rewrite !app_nil_r.
    now destruct t, w.
  - destruct (frames_of_lines e lines) as [fs stop]. cbn [fst snd] in *.
    cbn [deltas]. now rewrite (IH _ _ Hs).
Qed.

Lemma on_lines_done_app (e : Env) (a b : list jsstring) (t : Turn) (w : World) :
  snd (frames_of_lines e a) = true ->
  on_lines e (a ++ b) t w = on_lines e a t w.
Proof.
  intros Hs. rewrite on_lines_app, (on_lines_done e a t w Hs). reflexivity.
Qed.

(** X5.  Once the terminator line has been read the executor returns: the
    chunks that follow it, and an error of the stream after it, change
    nothing of the result or of what was done. *)
Theorem terminator_ends_stream (e : Env) (cs more : list (list byte))
  (broken broken' : bool) (t : Turn) (w : World) :
  has_terminator (frames e new_decoder cs) = true ->
  on_chunks e (cs ++ more) broken new_decoder t w
  = on_chunks e cs broken' new_decoder t w.
Proof.
  intros Ht. rewrite frames_feed_all, has_terminator_stop in Ht.
  rewrite !on_chunks_lines, feed_all_app, on_lines_done_app by auto.
  now rewrite (on_lines_done e _ t w Ht).
Qed.

(** A terminator, then one more chunk and an error of the stream. *)
Lemma terminator_ends_stream_trailing :
  on_chunks (Sample.env (fun _ => None))
            ([bytes "data: [DONE]" ++ [x0a]] ++ [bytes "data: more" ++ [x0a]])
            true new_decoder new_turn Sample.start
  = on_chunks (Sample.env (fun _ => None))
              [bytes "data: [DONE]" ++ [x0a]]
              false new_decoder new_turn Sample.start.
Proof.
  exact (@terminator_ends_stream (Sample.env (fun _ => None))
           [bytes "data: [DONE]" ++ [x0a]] [bytes "data: more" ++ [x0a]]
           true false new_turn Sample.start eq_refl).
Defined.

End StreamMore.

Module ExecutorMore.

Import Formatter Chat Observe StreamFacts StreamMore.

(** A stream that is read up to a terminator. *)
Lemma streamChatOnce_done (e : Env) (w : World) (res : Response) (body : Body) :
  fetch e (requests w) (messages w) = Some res ->
  res_ok res = true ->
  res_body res = Some body ->
  has_terminator (frames e new_decoder (chunks body)) = true ->
  streamChatOnce e w
  = on_done e
      {| reply := concat (deltas (frames e new_decoder (chunks body)));
         formatter := snd (formatAll Formatter.new
                             (deltas (frames e new_decoder (chunks body)))) |}
      {| messages := messages w;
         trace := (trace w ++ [Fetch (messages w); Stdout gpt_prompt])
                  ++ writes Formatter.new
                       (deltas (frames e new_decoder (chunks body)));
         requests := S (requests w) |}.
Proof.
  intros Hf Hok Hb Ht. unfold streamChatOnce. rewrite Hf, Hb, Hok.
  cbn [negb]. rewrite on_chunks_lines.
  rewrite frames_feed_all in *. rewrite has_terminator_stop in Ht.
  rewrite (on_lines_done e _ _ _ Ht).
  cbn [reply formatter new_turn messages trace requests log app].
  now rewrite <- (app_assoc (trace w) [Fetch (messages w)] [Stdout gpt_prompt]).
Qed.

(** A stream that breaks before any terminator. *)
Lemma streamChatOnce_broken (e : Env) (w : World) (res : Response)
  (cs : list (list byte)) :
  fetch e (requests w) (messages w) = Some res ->
  res_ok res = true ->
  res_body res = Some {| chunks := cs; fails := true |} ->
  has_terminator (frames e new_decoder cs) = false ->
  streamChatOnce e w
  = (Threw,
     {| messages := messages w;
        trace := (trace w ++ [Fetch (messages w); Stdout gpt_prompt])
                 ++ writes Formatter.new (deltas (frames e new_decoder cs));
        requests := S (requests w) |}).
Proof.
  intros Hf Hok Hb Ht. unfold streamChatOnce. rewrite Hf, Hb, Hok.
  cbn [negb chunks fails]. rewrite on_chunks_lines.
  rewrite frames_feed_all in *. rewrite has_terminator_stop in Ht.
  rewrite (on_lines_running e _ _ _ Ht).
  cbn [reply formatter new_turn messages trace requests log app].
  now rewrite <- (app_assoc (trace w) [Fetch (messages w)] [Stdout gpt_prompt]).
Qed.

(** X6.  When the stream of a successful response holds the terminator
    line, the executor appends one assistant message, the deltas before the
    terminator joined; with no delta before it the message that is appended
    has an empty content.  It then returns [ok = true] when [autosave] is
    off or the session is saved, and throws, the message appended, when the
    save fails. *)
Theorem terminator_appends_reply (e : Env) (w : World) (res : Response)
  (body : Body) :
  fetch e (requests w) (messages w) = Some res ->
  res_ok res = true ->
  res_body res = Some body ->
  has_terminator (frames e new_decoder (chunks body)) = true ->
  messages (snd (streamChatOnce e w))
  = messages w
    ++ [ {| role := assistant;
            content := concat (deltas (frames e new_decoder (chunks body))) |} ]
  /\ fst (streamChatOnce e w)
     = (if saved e (S (requests w))
             (messages w
              ++ [ {| role := assistant;
                      content := concat (deltas (frames e new_decoder
                                                   (chunks body))) |} ])
        then Returned ok_result else Threw).
Proof.
  intros Hf Hok Hb Ht. rewrite (streamChatOnce_done e w Hf Hok Hb Ht).
  unfold on_done.
  match goal with
  | |- context [maybe_save e ?w2] =>
      pose proof (RetryFacts.maybe_save_messages e w2) as Hm;
      pose proof (RetryFacts.maybe_save_saved e w2) as Hs;
      destruct (maybe_save e w2) as [done w3]
  end.
  cbn [fst snd log push messages requests reply] in *. rewrite <- Hs.
  split; [exact Hm | reflexivity].
Qed.

(** A stream that is the terminator alone: an assistant message with an
    empty content. *)
Lemma terminator_appends_reply_empty :
  messages (snd (streamChatOnce
                   (Sample.env (fun _ => Some (Sample.streaming
                                                 [bytes "data: [DONE]" ++ [x0a]])))
                   Sample.start))
  = messages Sample.start ++ [ {| role := assistant; content := [] |} ].
Proof.
  exact (proj1 (terminator_appends_reply
                  (Sample.env (fun _ => Some (Sample.streaming
                                                [bytes "data: [DONE]" ++ [x0a]])))
                  Sample.start
                  (res := Sample.streaming [bytes "data: [DONE]" ++ [x0a]])
                  eq_refl eq_refl eq_refl eq_refl)).
Defined.

(** X7.  When the stream of a successful response closes with no terminator
    and no delta, the executor appends nothing and the conversation ends
    with the user message; the run ends after that one call, in success
    when [autosave] is off or the session is saved, and because the executor
    threw when the save fails. *)
Theorem empty_stream_succeeds (e : Env) (userText : jsstring) (w : World)
  (res : Response) (cs : list (list byte)) :
  fetch e (requests w) (messages (ask userText w)) = Some res ->
  res_ok res = true ->
  res_body res = Some {| chunks := cs; fails := false |} ->
  has_terminator (frames e new_decoder cs) = false ->
  deltas (frames e new_decoder cs) = [] ->
  fst (askGPTStreamWithRetry e userText w)
  = {| ending := if saved e (S (requests w))
                      (messages w ++ [ {| role := user; content := userText |} ])
                 then Succeeded else Rejected;
       invocations := 1 |}
  /\ messages (snd (askGPTStreamWithRetry e userText w))
     = messages w ++ [ {| role := user; content := userText |} ].
Proof.
  intros Hf Hok Hb Ht Hds.
  pose proof (@Properties.streamChatOnce_closed e (ask userText w) res cs
                Hf Hok Hb Ht) as E.
  rewrite Hds in E. unfold on_close in E. cbn [reply concat truthy] in E.
  unfold askGPTStreamWithRetry, run. rewrite RetryFacts.retry_step, E.
  match goal with
  | |- context [maybe_save e ?w2] =>
      pose proof (RetryFacts.maybe_save_messages e w2) as Hm;
      pose proof (RetryFacts.maybe_save_saved e w2) as Hs;
      destruct (maybe_save e w2) as [done w3]
  end.
  cbn [fst snd log push ask messages requests] in *. rewrite <- Hs.
  destruct done; cbn [ok ok_result fst snd log messages]; now split.
Qed.

(** A successful response with an empty body. *)
Lemma empty_stream_succeeds_no_chunk :
  messages (snd (askGPTStreamWithRetry
                   (Sample.env (fun _ => Some (Sample.streaming [])))
                   (lit "hi") Sample.start))
  = messages Sample.start ++ [ {| role := user; content := lit "hi" |} ].
Proof.
  exact (proj2 (empty_stream_succeeds
                  (Sample.env (fun _ => Some (Sample.streaming [])))
                  (lit "hi") Sample.start
                  (res := Sample.streaming []) (cs := [])
                  eq_refl eq_refl eq_refl eq_refl eq_refl)).
Defined.

(** X8.  When the stream of a successful response ends with an error before
    any terminator, the executor throws: the deltas that came were written
    to the terminal but no assistant message is appended, and the run ends
    there, after one call, without the prompt being shown again. *)
Theorem broken_stream_loses_reply (e : Env) (userText : jsstring) (w : World)
  (res : Response) (cs : list (list byte)) :
  fetch e (requests w) (messages (ask userText w)) = Some res ->
  res_ok res = true ->
  res_body res = Some {| chunks := cs; fails := true |} ->
  has_terminator (frames e new_decoder cs) = false ->
  askGPTStreamWithRetry e userText w
  = ({| ending := Rejected; invocations := 1 |},
     {| messages := messages w ++ [ {| role := user; content := userText |} ];
        trace := (trace w
                  ++ [Fetch (messages w
                             ++ [ {| role := user; content := userText |} ]);
                      Stdout gpt_prompt])
                 ++ writes Formatter.new (deltas (frames e new_decoder cs));
        requests := S (requests w) |}).
Proof.
  intros Hf Hok Hb Ht.
  unfold askGPTStreamWithRetry, run. rewrite RetryFacts.retry_step.
  rewrite (@streamChatOnce_broken e (ask userText w) res cs Hf Hok Hb Ht).
  reflexivity.
Qed.

(** Two deltas and then an error of the stream. *)
Lemma broken_stream_loses_reply_two_deltas :
  messages (snd (askGPTStreamWithRetry
                   (Sample.env (fun _ => Some (Sample.breaking Sample.two_deltas)))
                   (lit "hi") Sample.start))
  = messages Sample.start ++ [ {| role := user; content := lit "hi" |} ].
Proof.
  exact (f_equal (fun x => messages (snd x))
           (broken_stream_loses_reply
              (Sample.env (fun _ => Some (Sample.breaking Sample.two_deltas)))
              (lit "hi") Sample.start
              (res := Sample.breaking Sample.two_deltas)
              (cs := Sample.two_deltas)
              eq_refl eq_refl eq_refl eq_refl)).
Defined.

End ExecutorMore.

(* ================================================================== *)
(** ** More on the retry loop *)
(* ================================================================== *)

Module RetryMore.

Import Formatter Chat Observe StreamFacts RetryFacts.

Lemma sleeps_app (a b : list Event) : sleeps (a ++ b) = sleeps a ++ sleeps b.
Proof.
  induction a as [|ev a IH]; [reflexivity|].
  destruct ev; cbn [app sleeps]; now rewrite IH.
Qed.

Lemma fetches_app (a b : list Event) :
  fetches (a ++ b) = fetches a ++ fetches b.
Proof.
  induction a as [|ev a IH]; [reflexivity|].
  destruct ev; cbn [app fetches]; now rewrite IH.
Qed.

Lemma prompts_app (a b : list Event) : prompts (a ++ b) = prompts a + prompts b.
Proof.
  induction a as [|ev a IH]; [reflexivity|].
  destruct ev; cbn [app prompts]; now rewrite IH.
Qed.

Lemma outputs_silent (a : list Event) :
  forallb is_output a = true ->
  sleeps a = [] /\ fetches a = [] /\ prompts a = 0.
Proof.
  induction a as [|ev a IH]; [now repeat split|].
  cbn [forallb]. intros H. apply andb_true_iff in H as [Hev Ha].
  destruct ev; try discriminate; cbn [sleeps fetches prompts]; auto.
Qed.

Lemma writes_only_refl (w : World) : writes_only w w.
Proof. exists []. now rewrite app_nil_r. Qed.

Lemma writes_only_trans (a b c : World) :
  writes_only a b -> writes_only b c -> writes_only a c.
Proof.
  intros (x & Ex & Hx & Rx) (y & Ey & Hy & Ry). exists (x ++ y).
  rewrite Ey, Ex, <- app_assoc, forallb_app, Hx, Hy. repeat split; congruence.
Qed.

Lemma writes_only_log (ev : Event) (w : World) :
  is_output ev = true -> writes_only w (log ev w).
Proof. intros H. exists [ev]. cbn. now rewrite H. Qed.

Lemma writes_only_push (m : Message) (w : World) : writes_only w (push m w).
Proof. exists []. cbn. now rewrite app_nil_r. Qed.

Lemma writes_only_save (e : Env) (w : World) :
  writes_only w (snd (maybe_save e w)).
Proof.
  unfold maybe_save. destruct (autosave e); [|apply writes_only_refl].
  destruct (saveSession e (requests w) (messages w));
    [|apply writes_only_refl].
  cbn [snd]. eapply writes_only_trans; now apply writes_only_log.
Qed.

Lemma on_done_writes (e : Env) (t : Turn) (w : World) :
  writes_only w (snd (on_done e t w))
  /\ (forall r, fst (on_done e t w) = Returned r -> r = ok_result).
Proof.
  unfold on_done.
  match goal with
  | |- context [maybe_save e ?w2] =>
      pose proof (writes_only_save e w2) as Hw;
      destruct (maybe_save e w2) as [done w3]
  end.
  cbn [fst snd] in *. split.
  - eapply writes_only_trans; [|exact Hw].
    eapply writes_only_trans; [|apply writes_only_push].
    now apply writes_only_log.
  - destruct done; [now intros r [= <-] | discriminate].
Qed.

Lemma on_close_writes (e : Env) (t : Turn) (w : World) :
  writes_only w (snd (on_close e t w))
  /\ (forall r, fst (on_close e t w) = Returned r -> r = ok_result).
Proof.
  unfold on_close.
  match goal with
  | |- context [maybe_save e ?w2] =>
      pose proof (writes_only_save e w2) as Hw;
      destruct (maybe_save e w2) as [done w3]
  end.
  cbn [fst snd] in *. split.
  - eapply writes_only_trans; [|exact Hw].
    destruct (truthy (reply t)).
    + eapply writes_only_trans; [|apply writes_only_push].
      now apply writes_only_log.
    + now apply writes_only_log.
  - destruct done; [now intros r [= <-] | discriminate].
Qed.

(** The inner loop only writes, and when it returns it returns [ok]. *)
Lemma on_lines_writes (e : Env) (lines : list jsstring) : forall t w,
  match on_lines e lines t w with
  | inl r => writes_only w (snd r)
             /\ (forall r0, fst r = Returned r0 -> r0 = ok_result)
  | inr (_, w1) => writes_only w w1 /\ messages w1 = messages w
  end.
Proof.
  induction lines as [|raw lines IH]; intros t w.
  - split; [apply writes_only_refl | reflexivity].
  - cbn [on_lines]. rewrite on_line_parse.
    destruct (parse e raw) as [token| |].
    + destruct (formatToken (formatter t) token) as [styled f].
      specialize (IH {| reply := reply t ++ token; formatter := f |}
                     (log (Stdout styled) w)).
      destruct (on_lines e lines _ _) as [r|[t1 w1]].
      * destruct IH as [Hw Hr]. split; auto.
        eapply writes_only_trans; [|exact Hw]. now apply writes_only_log.
      * destruct IH as [Hw Hm]. split; auto.
        eapply writes_only_trans; [|exact Hw]. now apply writes_only_log.
    + apply on_done_writes.
    + apply IH.
Qed.

Lemma on_chunks_writes (e : Env) (cs : list (list byte)) (broken : bool)
  (c : ChunkDecoder) (t : Turn) (w : World) :
  writes_only w (snd (on_chunks e cs broken c t w))
  /\ (forall r, fst (on_chunks e cs broken c t w) = Returned r -> ok r = true).
Proof.
  rewrite on_chunks_lines.
  pose proof (on_lines_writes e (fst (feed_all c cs)) t w) as H.
  destruct (on_lines e (fst (feed_all c cs)) t w) as [r|[t1 w1]].
  - destruct H as [Hw Hr]. split; auto. intros r0 Hr0.
    now rewrite (Hr r0 Hr0).
  - destruct H as [Hw Hm]. destruct broken.
    + split; [exact Hw | discriminate].
    + destruct (on_close_writes e t1 w1) as [Hc Hr]. split.
      * eapply writes_only_trans; [exact Hw | exact Hc].
      * intros r Hr0. now rewrite (Hr r Hr0).
Qed.

(** One call of the executor: one request, with the conversation as it is;
    after it only writes; and a result that is not [ok] leaves the
    conversation as it was. *)
Lemma streamChatOnce_shape (e : Env) (w : World) :
  (exists added,
     trace (snd (streamChatOnce e w)) = trace w ++ Fetch (messages w) :: added
     /\ forallb is_output added = true)
  /\ requests (snd (streamChatOnce e w)) = S (requests w)
  /\ (forall r, fst (streamChatOnce e w) = Returned r -> ok r = false ->
       messages (snd (streamChatOnce e w)) = messages w).
Proof.
  unfold streamChatOnce.
  destruct (fetch e (requests w) (messages w)) as [res|].
  - assert (Hfail : forall w0,
              (exists added,
                 trace (snd (transport_failure e res w0)) = trace w0 ++ added
                 /\ forallb is_output added = true)
              /\ requests (snd (transport_failure e res w0)) = requests w0
              /\ messages (snd (transport_failure e res w0)) = messages w0).
    { intros w0. unfold transport_failure. destruct (VERBOSE e); cbn.
      - repeat split; eauto.
      - repeat split; auto. exists []. now rewrite app_nil_r. }
    assert (Hcase : forall w0 : World,
              trace w0 = trace w ++ [Fetch (messages w)] ->
              requests w0 = S (requests w) -> messages w0 = messages w ->
              (exists added,
                 trace (snd (transport_failure e res w0))
                 = trace w ++ Fetch (messages w) :: added
                 /\ forallb is_output added = true)
              /\ requests (snd (transport_failure e res w0)) = S (requests w)
              /\ (forall r, fst (transport_failure e res w0) = Returned r ->
                   ok r = false ->
                   messages (snd (transport_failure e res w0)) = messages w)).
    { intros w0 Ht Hr Hm. destruct (Hfail w0) as ((added & Ea & Ha) & Hq & Hmm).
      repeat split.
      - exists added. rewrite Ea, Ht, <- app_assoc. auto.
      - congruence.
      - intros; congruence. }
    destruct (res_body res) as [body|]; [|now apply Hcase].
    destruct (negb (res_ok res)); [now apply Hcase|].
    match goal with
    | |- context [on_chunks e ?cs ?b ?c ?t ?w0] =>
        destruct (on_chunks_writes e cs b c t w0) as ((added & Ea & Ha & Hq) & Hok)
    end.
    repeat split.
    + exists (Stdout gpt_prompt :: added). rewrite Ea. cbn [log trace].
      rewrite <- !app_assoc. cbn [app forallb is_output]. auto.
    + rewrite Hq. reflexivity.
    + intros r Hr Hnot. rewrite (Hok r Hr) in Hnot. discriminate.
  - cbn [fst snd trace requests]. repeat split; try discriminate.
    now exists [].
Qed.

Lemma report_failure_trace (v : bool) (r : AttemptResult) (w : World) :
  sleeps (trace (report_failure v r w)) = sleeps (trace w)
  /\ fetches (trace (report_failure v r w)) = fetches (trace w)
  /\ prompts (trace (report_failure v r w)) = prompts (trace w) + 1
  /\ requests (report_failure v r w) = requests w.
Proof.
  unfold report_failure. destruct (_ && _); cbn [log trace requests];
    rewrite !sleeps_app, !fetches_app, !prompts_app; cbn;
    rewrite ?app_nil_r; repeat split; lia.
Qed.

(** What a run of the loop over [streamChatOnce] leaves in the trace. *)
Lemma retry_trace (e : Env) (v : bool) (left : nat) : forall attempt calls w,
  attempt + S left = S MAX_RETRIES ->
  exists k,
    invocations (fst (retry (streamChatOnce e) v (S left) attempt calls w))
    = calls + S k
    /\ sleeps (trace (snd (retry (streamChatOnce e) v (S left) attempt calls w)))
       = sleeps (trace w) ++ map backoff (seq attempt k)
    /\ fetches (trace (snd (retry (streamChatOnce e) v (S left) attempt calls w)))
       = fetches (trace w) ++ repeat (messages w) (S k)
    /\ requests (snd (retry (streamChatOnce e) v (S left) attempt calls w))
       = requests w + S k
    /\ prompts (trace (snd (retry (streamChatOnce e) v (S left) attempt calls w)))
       = prompts (trace w)
         + shows_prompt
             (ending (fst (retry (streamChatOnce e) v (S left) attempt calls w)))
    /\ ending (fst (retry (streamChatOnce e) v (S left) attempt calls w))
       <> Exhausted.
Proof.
  induction left as [|left IH]; intros attempt calls w Hsum;
    rewrite retry_step;
    destruct (streamChatOnce_shape e w) as ((added & Ea & Ha) & Hq & Hm);
    destruct (outputs_silent added Ha) as (Hs & Hf & Hp);
    destruct (streamChatOnce e w) as [[r|] w1]; cbn [fst snd] in *.
  - (* the last iteration *)
    destruct (ok r) eqn:Hok.
    + exists 0. cbn [fst snd invocations ending log trace requests shows_prompt].
      rewrite Ea, !sleeps_app, !fetches_app, !prompts_app. cbn.
      rewrite Hs, Hf, Hp, ?app_nil_r. repeat split; try lia; discriminate.
    + replace attempt with MAX_RETRIES by lia. rewrite Nat.eqb_refl, orb_true_r.
      destruct (report_failure_trace v r w1) as (Rs & Rf & Rp & Rq).
      exists 0. cbn [fst snd invocations ending shows_prompt].
      rewrite Rs, Rf, Rp, Rq, Ea, !sleeps_app, !fetches_app, !prompts_app. cbn.
      rewrite Hs, Hf, Hp, ?app_nil_r. repeat split; try lia; discriminate.
  - exists 0. cbn [fst snd invocations ending shows_prompt].
    rewrite Ea, !sleeps_app, !fetches_app, !prompts_app. cbn.
    rewrite Hs, Hf, Hp, ?app_nil_r. repeat split; try lia; discriminate.
  - destruct (ok r) eqn:Hok.
    + exists 0. cbn [fst snd invocations ending log trace requests shows_prompt].
      rewrite Ea, !sleeps_app, !fetches_app, !prompts_app. cbn.
      rewrite Hs, Hf, Hp, ?app_nil_r. repeat split; try lia; discriminate.
    + destruct (negb (isRetriable (status_or_zero r))
                || Nat.eqb attempt MAX_RETRIES) eqn:Hstop.
      * destruct (report_failure_trace v r w1) as (Rs & Rf & Rp & Rq).
        exists 0. cbn [fst snd invocations ending shows_prompt].
        rewrite Rs, Rf, Rp, Rq, Ea, !sleeps_app, !fetches_app, !prompts_app. cbn.
        rewrite Hs, Hf, Hp, ?app_nil_r. repeat split; try lia; discriminate.
      * match goal with
        | |- context [retry (streamChatOnce e) v (S left) (S attempt) (S calls) ?w3] =>
            destruct (IH (S attempt) (S calls) w3 ltac:(lia))
              as (k & Ki & Ks & Kf & Kq & Kp & Ke)
        end.
        exists (S k). rewrite Ki, Ks, Kf, Kq, Kp.
        cbn [log trace requests messages].
        rewrite (Hm r eq_refl Hok), Ea.
        rewrite !sleeps_app, !fetches_app, !prompts_app. cbn.
        rewrite Hs, Hf, Hp, ?app_nil_r. cbn.
        rewrite <- !app_assoc. cbn [app].
        repeat split; try lia; auto.
  - exists 0. cbn [fst snd invocations ending shows_prompt].
    rewrite Ea, !sleeps_app, !fetches_app, !prompts_app. cbn.
    rewrite Hs, Hf, Hp, ?app_nil_r. repeat split; try lia; discriminate.
Qed.

Lemma calls_and_waits_app (a b : list Event) :
  calls_and_waits (a ++ b) = calls_and_waits a ++ calls_and_waits b.
Proof.
  induction a as [|ev a IH]; [reflexivity|].
  destruct ev; cbn [app calls_and_waits]; now rewrite IH.
Qed.

Lemma outputs_no_call (a : list Event) :
  forallb is_output a = true -> calls_and_waits a = [].
Proof.
  induction a as [|ev a IH]; [reflexivity|].
  cbn [forallb]. intros H. apply andb_true_iff in H as [Hev Ha].
  destruct ev; try discriminate; cbn [calls_and_waits]; auto.
Qed.

Lemma report_failure_no_call (v : bool) (r : AttemptResult) (w : World) :
  calls_and_waits (trace (report_failure v r w)) = calls_and_waits (trace w).
Proof.
  unfold report_failure. destruct (_ && _); cbn [log trace];
    rewrite !calls_and_waits_app; cbn; now rewrite ?app_nil_r.
Qed.

(** The requests and the waits of a run of the loop over [streamChatOnce],
    in order: a request, then for each retry a wait and a request. *)
Lemma retry_timeline (e : Env) (v : bool) (left : nat) : forall attempt calls w,
  attempt + S left = S MAX_RETRIES ->
  exists k,
    invocations (fst (retry (streamChatOnce e) v (S left) attempt calls w))
    = calls + S k
    /\ calls_and_waits
         (trace (snd (retry (streamChatOnce e) v (S left) attempt calls w)))
       = calls_and_waits (trace w)
         ++ Fetch (messages w) :: retries (messages w) attempt k.
Proof.
  induction left as [|left IH]; intros attempt calls w Hsum;
    rewrite retry_step;
    destruct (streamChatOnce_shape e w) as ((added & Ea & Ha) & Hq & Hm);
    pose proof (outputs_no_call added Ha) as Hs;
    destruct (streamChatOnce e w) as [[r|] w1]; cbn [fst snd] in *.
  - destruct (ok r) eqn:Hok.
    + exists 0. cbn [fst snd invocations log trace retries].
      rewrite Ea, !calls_and_waits_app. cbn [calls_and_waits].
      rewrite Hs. cbn. split; [lia | now rewrite ?app_nil_r].
    + replace attempt with MAX_RETRIES by lia. rewrite Nat.eqb_refl, orb_true_r.
      exists 0. cbn [fst snd invocations retries].
      rewrite report_failure_no_call, Ea, !calls_and_waits_app.
      cbn [calls_and_waits]. rewrite Hs. split; [lia | reflexivity].
  - exists 0. cbn [fst snd invocations retries].
    rewrite Ea, !calls_and_waits_app. cbn [calls_and_waits].
    rewrite Hs. split; [lia | reflexivity].
  - destruct (ok r) eqn:Hok.
    + exists 0. cbn [fst snd invocations log trace retries].
      rewrite Ea, !calls_and_waits_app. cbn [calls_and_waits].
      rewrite Hs. cbn. split; [lia | now rewrite ?app_nil_r].
    + destruct (negb (isRetriable (status_or_zero r))
                || Nat.eqb attempt MAX_RETRIES) eqn:Hstop.
      * exists 0. cbn [fst snd invocations retries].
        rewrite report_failure_no_call, Ea, !calls_and_waits_app.
        cbn [calls_and_waits]. rewrite Hs. split; [lia | reflexivity].
      * match goal with
        | |- context [retry (streamChatOnce e) v (S left) (S attempt) (S calls) ?w3] =>
            destruct (IH (S attempt) (S calls) w3 ltac:(lia)) as (k & Ki & Kt)
        end.
        exists (S k). rewrite Ki, Kt. cbn [log trace messages].
        rewrite (Hm r eq_refl Hok), Ea, !calls_and_waits_app.
        cbn [calls_and_waits]. rewrite Hs. cbn [app retries].
        rewrite <- !app_assoc. cbn [app]. split; [lia | reflexivity].
  - exists 0. cbn [fst snd invocations retries].
    rewrite Ea, !calls_and_waits_app. cbn [calls_and_waits].
    rewrite Hs. split; [lia | reflexivity].
Qed.

(** X9.  In every run the controller waits once before each call of the
    executor after the first, and the waits double from [BASE_DELAY_MS]:
    2000, 4000 and 8000 milliseconds when all [MAX_RETRIES] retries are
    made; it does not wait after the last call.  The requests and the waits
    of the run, in the order they happen, are one request and then, for
    each further call, its wait followed by its request. *)
Theorem backoff_schedule (e : Env) (userText : jsstring) (w : World) :
  sleeps (trace (snd (askGPTStreamWithRetry e userText w)))
  = sleeps (trace w)
    ++ map backoff
         (seq 0 (invocations (fst (askGPTStreamWithRetry e userText w)) - 1))
  /\ map backoff (seq 0 MAX_RETRIES) = [2000; 4000; 8000]%Z
  /\ calls_and_waits (trace (snd (askGPTStreamWithRetry e userText w)))
     = calls_and_waits (trace w)
       ++ Fetch (messages w ++ [ {| role := user; content := userText |} ])
          :: retries (messages w ++ [ {| role := user; content := userText |} ])
               0 (invocations (fst (askGPTStreamWithRetry e userText w)) - 1).
Proof.
  split; [|split; [reflexivity|]]; unfold askGPTStreamWithRetry, run.
  - destruct (@retry_trace e (VERBOSE e) MAX_RETRIES 0 0 (ask userText w) eq_refl)
      as (k & Ki & Ks & _).
    rewrite Ki, Ks. cbn [ask push trace].
    now replace (0 + S k - 1) with k by lia.
  - destruct (@retry_timeline e (VERBOSE e) MAX_RETRIES 0 0 (ask userText w)
                eq_refl) as (k & Ki & Kt).
    rewrite Ki, Kt. cbn [ask push trace messages].
    now replace (0 + S k - 1) with k by lia.
Qed.

(** X10.  Every call of the executor in a run makes one request, and every
    request of the run carries the same history: the conversation the run
    found followed by the user message, once.  A retry resends it as it
    was. *)
Theorem retries_resend_history (e : Env) (userText : jsstring) (w : World) :
  fetches (trace (snd (askGPTStreamWithRetry e userText w)))
  = fetches (trace w)
    ++ repeat (messages w ++ [ {| role := user; content := userText |} ])
         (invocations (fst (askGPTStreamWithRetry e userText w)))
  /\ requests (snd (askGPTStreamWithRetry e userText w))
     = requests w + invocations (fst (askGPTStreamWithRetry e userText w)).
Proof.
  unfold askGPTStreamWithRetry, run.
  destruct (@retry_trace e (VERBOSE e) MAX_RETRIES 0 0 (ask userText w) eq_refl)
    as (k & Ki & _ & Kf & Kq & _).
  rewrite Ki, Kf, Kq. cbn [ask push trace messages requests]. now split.
Qed.

(** X11.  A run never leaves the loop through its condition: it ends in the
    loop body, in success, in a reported failure, or because the executor
    threw.  It shows the prompt again exactly once in the first two cases
    and not at all in the third. *)
Theorem run_ends_in_body (e : Env) (userText : jsstring) (w : World) :
  ending (fst (askGPTStreamWithRetry e userText w)) <> Exhausted
  /\ prompts (trace (snd (askGPTStreamWithRetry e userText w)))
     = prompts (trace w)
       + shows_prompt (ending (fst (askGPTStreamWithRetry e userText w))).
Proof.
  unfold askGPTStreamWithRetry, run.
  destruct (@retry_trace e (VERBOSE e) MAX_RETRIES 0 0 (ask userText w) eq_refl)
    as (k & _ & _ & _ & _ & Kp & Ke).
  split; [exact Ke|]. rewrite Kp. reflexivity.
Qed.

End RetryMore.

(* ================================================================== *)
(** ** The farewell *)
(* ================================================================== *)

Module GoodbyeFacts.

Import Chat Observe Goodbye RetryMore.

(** X12.  The farewell makes exactly one request, with the conversation
    followed by the farewell as a user message, and never waits or
    retries; the process exits unless the executor threw.  When the
    response is a failure, whatever its status, [Goodbye.] is written and
    the process exits. *)
Theorem farewell_once (e : Env) (w : World) :
  requests (snd (sayGoodbyeAndExit e w)) = S (requests w)
  /\ fetches (trace (snd (sayGoodbyeAndExit e w)))
     = fetches (trace w)
       ++ [ messages w ++ [ {| role := user; content := farewell |} ] ]
  /\ sleeps (trace (snd (sayGoodbyeAndExit e w))) = sleeps (trace w)
  /\ (fst (sayGoodbyeAndExit e w) = false
      <-> fst (streamChatOnce e (push {| role := user; content := farewell |} w))
          = Threw)
  /\ (forall res,
        fetch e (requests w)
              (messages w ++ [ {| role := user; content := farewell |} ])
        = Some res ->
        res_ok res = false \/ res_body res = None ->
        fst (sayGoodbyeAndExit e w) = true
        /\ exists before,
             trace (snd (sayGoodbyeAndExit e w))
             = before ++ [Stdout [(Plain, lit "Goodbye." ++ [newline])]]).
Proof.
  unfold sayGoodbyeAndExit.
  destruct (streamChatOnce_shape e (push {| role := user; content := farewell |} w))
    as ((added & Ea & Ha) & Hq & Hm).
  destruct (outputs_silent added Ha) as (Hs & Hf & Hp).
  split; [|split; [|split; [|split]]].
  - destruct (streamChatOnce e _) as [[r|] w1]; cbn [fst snd] in *; auto.
    now destruct (negb (ok r)).
  - destruct (streamChatOnce e _) as [[r|] w1]; cbn [fst snd] in *.
    + destruct (negb (ok r)); cbn [log trace];
        rewrite Ea, ?fetches_app; cbn [push messages trace fetches];
        rewrite Hf, ?app_nil_r; reflexivity.
    + rewrite Ea, fetches_app. cbn [push messages trace fetches].
      now rewrite Hf.
  - destruct (streamChatOnce e _) as [[r|] w1]; cbn [fst snd] in *.
    + destruct (negb (ok r)); cbn [log trace];
        rewrite Ea, ?sleeps_app; cbn [push messages trace sleeps];
        rewrite Hs, ?app_nil_r; reflexivity.
    + rewrite Ea, sleeps_app. cbn [push messages trace sleeps].
      now rewrite Hs, app_nil_r.
  - destruct (streamChatOnce e _) as [[r|] w1]; cbn [fst]; split;
      congruence.
  - intros res Hfetch Hbad.
    assert (E : fst (streamChatOnce e (push {| role := user; content := farewell |} w))
                = Returned {| ok := false; status := Some (res_status res);
                              errorText := Some (res_text res) |}).
    { unfold streamChatOnce. cbn [push messages requests]. rewrite Hfetch.
      destruct (res_body res) as [body|]; [|reflexivity].
      destruct Hbad as [H|H]; [now rewrite H | discriminate]. }
    destruct (streamChatOnce e _) as [[r|] w1]; cbn [fst snd] in *;
      [|discriminate].
    injection E as ->. cbn [ok negb]. split; [reflexivity|].
    now exists (trace w1).
Qed.

(** A server that answers 503, which a chat turn would retry. *)
Lemma farewell_once_503 :
  sayGoodbyeAndExit (Sample.env (fun _ => Some (Sample.failing 503)))
                    Sample.start
  = (true,
     {| messages := messages Sample.start
                    ++ [ {| role := user; content := farewell |} ];
        trace := [Fetch (messages Sample.start
                         ++ [ {| role := user; content := farewell |} ]);
                  Stdout [(Plain, lit "Goodbye." ++ [newline])]];
        requests := 1 |})
  /\ requests (snd (sayGoodbyeAndExit
                      (Sample.env (fun _ => Some (Sample.failing 503)))
                      Sample.start)) = 1.
Proof.
  split; [reflexivity|].
  exact (proj1 (farewell_once (Sample.env (fun _ => Some (Sample.failing 503)))
                  Sample.start)).
Defined.

End GoodbyeFacts.

(* ================================================================== *)
(** ** The slash commands *)
(* ================================================================== *)

Module CommandFacts.

Import Chat Commands RetryFacts.

Lemma split_on_not_nil (sep : char) (s : jsstring) : split_on sep s <> [].
Proof.
  induction s as [|c s IH]; simpl; [discriminate|].
  destruct (N.eqb c sep); [discriminate|].
  destruct (split_on sep s); discriminate.
Qed.

(** [join] undoes [split]. *)
Lemma join_split_on (sep : char) (s : jsstring) :
  join sep (split_on sep s) = s.
Proof.
  induction s as [|c s IH]; [reflexivity|].
  cbn [split_on]. pose proof (split_on_not_nil sep s) as Hne.
  destruct (N.eqb c sep) eqn:Hc.
  - apply N.eqb_eq in Hc. subst c.
    destruct (split_on sep s) as [|l ls]; [congruence|].
    cbn [join app] in *. now rewrite IH.
  - destruct (split_on sep s) as [|l ls]; [congruence|].
    destruct ls as [|l' ls']; cbn [join app] in *; now rewrite <- IH.
Qed.

Lemma split_on_head (sep : char) (cmd rest : jsstring) :
  forallb (fun c => negb (N.eqb c sep)) cmd = true ->
  split_on sep (cmd ++ sep :: rest) = cmd :: split_on sep rest.
Proof.
  induction cmd as [|c cmd IH]; cbn [forallb app split_on].
  - intros _. now rewrite N.eqb_refl.
  - intros H. apply andb_true_iff in H as [Hc Hrest].
    apply negb_true_iff in Hc. rewrite Hc, (IH Hrest). reflexivity.
Qed.

Lemma split_on_whole (sep : char) (cmd : jsstring) :
  forallb (fun c => negb (N.eqb c sep)) cmd = true ->
  split_on sep cmd = [cmd].
Proof.
  induction cmd as [|c cmd IH]; cbn [forallb split_on]; [reflexivity|].
  intros H. apply andb_true_iff in H as [Hc Hrest].
  apply negb_true_iff in Hc. rewrite Hc, (IH Hrest). reflexivity.
Qed.

(** X13.  The command of an input line is what stands between its first
    character and its first space, and the argument is everything after
    that space, with the spaces inside it kept and the white space around
    it trimmed; with no space the argument is empty. *)
Theorem command_and_argument (c0 : char) (cmd arg : jsstring) :
  forallb (fun c => negb (N.eqb c space)) cmd = true ->
  command_of (c0 :: cmd ++ space :: arg) = (cmd, trim arg)
  /\ command_of (c0 :: cmd) = (cmd, []).
Proof.
  intros H. unfold command_of. cbn [skipn].
  rewrite (@split_on_head space cmd arg H), (@split_on_whole space cmd H).
  now rewrite join_split_on.
Qed.

(** [/system  be  brief ]: two spaces inside are kept. *)
Lemma command_and_argument_system :
  command_of (lit "/system  be  brief ") = (lit "system", lit "be  brief").
Proof.
  exact (eq_trans
           (proj1 (command_and_argument 47%N (lit "system") (lit " be  brief ")
                     eq_refl))
           eq_refl).
Defined.

(** *** /system *)

Lemma set_content_facts (text : jsstring) (ms : list Message) : forall i,
  findIndex is_system ms = Some i ->
  find is_system (set_content i text ms)
  = Some {| role := system; content := text |}
  /\ findIndex is_system (set_content i text ms) = Some i
  /\ filter other (set_content i text ms) = filter other ms
  /\ count_role system (set_content i text ms) = count_role system ms
  /\ 0 < count_role system ms
  /\ (forall text', set_content i text' (set_content i text ms)
                     = set_content i text' ms).
Proof.
  induction ms as [|m ms IH]; intros i; [discriminate|].
  cbn [findIndex]. destruct (is_system m) eqn:Hm.
  - intros [= <-]. cbn [set_content find findIndex is_system role filter].
    unfold is_system in Hm. destruct m as [r c]. cbn [role] in *.
    destruct r; try discriminate.
    unfold other, is_system, count_role. cbn. repeat split; auto. lia.
  - destruct (findIndex is_system ms) as [j|] eqn:Hj; [|discriminate].
    intros [= <-]. destruct (IH j eq_refl) as (H1 & H2 & H3 & H4 & H5 & H6).
    assert (Ho : other m = true) by (unfold other; now rewrite Hm).
    cbn [set_content find findIndex filter].
    rewrite Hm, H1, H2, !Ho, H3.
    unfold count_role in *. cbn [filter].
    unfold is_system in Hm. destruct (role m); try discriminate;
      cbn [length]; repeat split; auto; try lia;
      try (intros text'; now rewrite H6).
Qed.

Lemma findIndex_none (ms : list Message) :
  findIndex is_system ms = None ->
  find is_system ms = None /\ count_role system ms = 0.
Proof.
  induction ms as [|m ms IH]; [now split|].
  cbn [findIndex find]. destruct (is_system m) eqn:Hm; [discriminate|].
  destruct (findIndex is_system ms); [discriminate|]. intros _.
  destruct (IH eq_refl) as [H1 H2]. split; [exact H1|].
  unfold count_role in *. cbn [filter].
  unfold is_system in Hm. destruct (role m); try discriminate; exact H2.
Qed.

Lemma system_command_at (text : jsstring) (pre : list Message) :
  forall (m : Message) (post : list Message),
  count_role system pre = 0 -> role m = system ->
  findIndex is_system (pre ++ m :: post) = Some (length pre)
  /\ set_content (length pre) text (pre ++ m :: post)
     = pre ++ {| role := system; content := text |} :: post.
Proof.
  induction pre as [|p pre IH]; intros m post Hc Hm.
  - cbn [app findIndex length set_content]. unfold is_system. rewrite Hm.
    now split.
  - assert (Hp : is_system p = false /\ count_role system pre = 0).
    { unfold count_role in *. cbn [filter] in Hc. unfold is_system.
      destruct (role p); cbn [length] in Hc; try discriminate; now split. }
    destruct Hp as [Hp Hc']. destruct (IH m post Hc' Hm) as [H1 H2].
    cbn [app findIndex length set_content]. rewrite Hp, H1, H2. now split.
Qed.

(** X14.  [/system <text>] with a text that is not empty makes [text] the
    content of the first system message, or puts a new system message in
    front when there is none; every other message stays as it was and
    where it was, later system messages included; and a second [/system]
    overwrites the first. *)
Theorem system_command_sets_prompt (text : jsstring) (ms : list Message) :
  truthy text = true ->
  (forall pre m post,
     ms = pre ++ m :: post -> count_role system pre = 0 -> role m = system ->
     system_command text ms
     = pre ++ {| role := system; content := text |} :: post)
  /\ (count_role system ms = 0 ->
      system_command text ms = {| role := system; content := text |} :: ms)
  /\ find is_system (system_command text ms)
     = Some {| role := system; content := text |}
  /\ filter other (system_command text ms) = filter other ms
  /\ count_role system (system_command text ms)
     = Nat.max 1 (count_role system ms)
  /\ (forall text', truthy text' = true ->
       system_command text' (system_command text ms)
       = system_command text' ms).
Proof.
  intros Ht. split; [|split].
  - intros pre m post -> Hc Hm. unfold system_command. rewrite Ht. cbn [negb].
    destruct (system_command_at text pre m post Hc Hm) as [H1 H2].
    now rewrite H1, H2.
  - intros Hc. unfold system_command. rewrite Ht. cbn [negb].
    destruct (findIndex is_system ms) as [i|] eqn:Hi; [|reflexivity].
    destruct (@set_content_facts text ms i Hi) as (_ & _ & _ & _ & H5 & _). lia.
  - unfold system_command. rewrite Ht. cbn [negb].
    destruct (findIndex is_system ms) as [i|] eqn:Hi.
    + destruct (@set_content_facts text ms i Hi) as (H1 & H2 & H3 & H4 & H5 & H6).
      repeat split; auto; try lia.
      intros text' Ht'. rewrite Ht'. cbn [negb]. now rewrite H2, H6.
    + destruct (@findIndex_none ms Hi) as [Hf Hc].
      cbn [find is_system role filter]. unfold other at 1. cbn.
      fold other. repeat split; auto.
      * unfold count_role in *. cbn [filter role length]. rewrite Hc. reflexivity.
      * intros text' Ht'. rewrite Ht'. reflexivity.
Qed.

(** A conversation with two system messages: the first is rewritten, the
    second stays. *)
Lemma system_command_sets_prompt_first :
  system_command (lit "be brief")
    [ {| role := user; content := lit "hi" |};
      {| role := system; content := lit "one" |};
      {| role := system; content := lit "two" |} ]
  = [ {| role := user; content := lit "hi" |};
      {| role := system; content := lit "be brief" |};
      {| role := system; content := lit "two" |} ].
Proof.
  exact (proj1 (system_command_sets_prompt (lit "be brief")
                  [ {| role := user; content := lit "hi" |};
                    {| role := system; content := lit "one" |};
                    {| role := system; content := lit "two" |} ] eq_refl)
           [ {| role := user; content := lit "hi" |} ]
           {| role := system; content := lit "one" |}
           [ {| role := system; content := lit "two" |} ]
           eq_refl eq_refl eq_refl).
Defined.

(** X15.  A conversation that starts with a system message keeps it in
    front through chat turns and [/system] commands, as the conversation
    of [/new] does; [/clear] then leaves that message alone.  On a
    conversation with no system message [/clear] leaves one empty object,
    not a system message. *)
Theorem prompt_stays_first :
  (forall p, prompt_first (defaultSystemPrompt p))
  /\ (forall e userText w,
       prompt_first (messages w) ->
       prompt_first (messages (snd (askGPTStreamWithRetry e userText w))))
  /\ (forall text ms, prompt_first ms -> prompt_first (system_command text ms))
  /\ (forall ms, prompt_first ms ->
       clear ms = [hd_error ms] /\ length (clear ms) = 1)
  /\ (forall ms, count_role system ms = 0 -> clear ms = [None]).
Proof.
  split; [|split; [|split; [|split]]].
  - intros p. now exists p, [].
  - intros e userText w (p & rest & E).
    unfold askGPTStreamWithRetry, run.
    destruct (retry_grows e (VERBOSE e) (S MAX_RETRIES) 0 0 (ask userText w))
      as [tail [Et _]].
    rewrite Et. cbn [ask push messages]. rewrite E. cbn [app].
    now exists p, ((rest ++ [ {| role := user; content := userText |} ]) ++ tail).
  - intros text ms (p & rest & ->). unfold system_command.
    destruct (negb (truthy text)); [now exists p, rest|].
    cbn [findIndex is_system role set_content]. now exists text, rest.
  - intros ms (p & rest & ->). now split.
  - intros ms Hc. unfold clear. f_equal.
    induction ms as [|m ms IH]; [reflexivity|].
    unfold count_role in *. cbn [filter find] in *.
    unfold is_system. destruct (role m); cbn [length] in Hc;
      try discriminate; now apply IH.
Qed.

(** A loaded conversation that has no system message. *)
Lemma prompt_stays_first_none :
  clear [ {| role := user; content := lit "hi" |};
          {| role := assistant; content := lit "hello" |} ] = [None].
Proof.
  exact (proj2 (proj2 (proj2 (proj2 prompt_stays_first)))
           [ {| role := user; content := lit "hi" |};
             {| role := assistant; content := lit "hello" |} ] eq_refl).
Defined.

End CommandFacts.

(* ================================================================== *)
(** ** The saved sessions *)
(* ================================================================== *)

Module SessionFacts.

Import Sessions.

Lemma startsWith_prefix (p : jsstring) : forall s,
  startsWith p s = true -> exists r, s = p ++ r.
Proof.
  induction p as [|x p IH]; intros s H; [now exists s|].
  destruct s as [|y s]; [discriminate|]. cbn [startsWith] in H.
  apply andb_true_iff in H as [Hx Hp]. apply N.eqb_eq in Hx. subst y.
  destruct (IH s Hp) as [r ->]. now exists r.
Qed.

Lemma endsWith_suffix (suffix s : jsstring) :
  endsWith suffix s = true -> exists r, s = r ++ suffix.
Proof.
  unfold endsWith. intros H. destruct (startsWith_prefix _ _ H) as [r E].
  exists (rev r). rewrite <- (rev_involutive s), E, rev_app_distr.
  now rewrite rev_involutive.
Qed.

Lemma strip_json_ext (f : jsstring) :
  endsWith json_ext f = true -> strip_json f ++ json_ext = f.
Proof.
  intros H. unfold strip_json. rewrite H.
  destruct (endsWith_suffix _ _ H) as [r ->].
  rewrite length_app, Nat.add_sub, firstn_app, Nat.sub_diag, firstn_all.
  cbn [firstn]. now rewrite app_nil_r.
Qed.

Lemma leb_total (a : jsstring) : forall b, leb a b = false -> leb b a = true.
Proof.
  induction a as [|x a IH]; intros [|y b]; cbn [leb]; try discriminate; auto.
  destruct (N.ltb x y) eqn:Hxy; [discriminate|].
  destruct (N.ltb y x) eqn:Hyx; [reflexivity|]. apply IH.
Qed.

Lemma insert_perm (x : jsstring) (l : list jsstring) :
  Permutation (insert x l) (x :: l).
Proof.
  induction l as [|y l IH]; [reflexivity|]. cbn [insert].
  destruct (leb x y); [reflexivity|].
  rewrite IH. apply perm_swap.
Qed.

Lemma sort_perm (l : list jsstring) : Permutation (sort l) l.
Proof.
  induction l as [|x l IH]; [reflexivity|]. cbn [sort].
  rewrite insert_perm. now constructor.
Qed.

Lemma insert_sorted (x : jsstring) (l : list jsstring) :
  Sorted below l -> Sorted below (insert x l).
Proof.
  induction l as [|y l IH]; intros Hs; cbn [insert].
  - repeat constructor.
  - destruct (leb x y) eqn:Hxy.
    + constructor; [exact Hs | now constructor].
    + apply Sorted_inv in Hs as [Hs Hd]. constructor; [now apply IH|].
      destruct l as [|z l]; cbn [insert].
      * constructor. now apply leb_total.
      * destruct (leb x z); constructor.
        -- now apply leb_total.
        -- now inversion Hd.
Qed.

Lemma sort_sorted (l : list jsstring) : Sorted below (sort l).
Proof.
  induction l as [|x l IH]; [constructor|]. now apply insert_sorted.
Qed.

Lemma entries_files (fs : list jsstring) : forall i,
  map file (entries i fs) = fs.
Proof.
  induction fs as [|f fs IH]; intros i; [reflexivity|].
  cbn [entries map file]. now rewrite IH.
Qed.

Lemma entries_index (fs : list jsstring) : forall i k x,
  nth_error (entries i fs) k = Some x -> index x = (i + N.of_nat k + 1)%N.
Proof.
  induction fs as [|f fs IH]; intros i k x; [now destruct k|].
  destruct k as [|k]; cbn [entries nth_error].
  - intros [= <-]. cbn [index]. lia.
  - intros H. rewrite (IH _ _ _ H). lia.
Qed.

Lemma entries_names (fs : list jsstring) : forall i,
  Forall (fun f => endsWith json_ext f = true) fs ->
  Forall (fun x => file x = name x ++ json_ext) (entries i fs).
Proof.
  induction fs as [|f fs IH]; intros i H; [constructor|].
  inversion H as [|? ? Hf Hrest]; subst. cbn [entries].
  constructor; [|now apply IH]. cbn [file name]. now rewrite strip_json_ext.
Qed.

Lemma json_files (files : list jsstring) :
  Forall (fun f => endsWith json_ext f = true)
         (sort (filter (endsWith json_ext) files)).
Proof.
  apply Forall_forall. intros f Hin.
  apply (Permutation_in _ (sort_perm _)) in Hin.
  now apply filter_In in Hin.
Qed.

Lemma sessions_names (files : list jsstring) :
  Permutation (map file (listSessions files))
              (filter (endsWith json_ext) files)
  /\ Forall (fun x => file x = name x ++ json_ext) (listSessions files).
Proof.
  unfold listSessions. rewrite entries_files. split.
  - apply sort_perm.
  - apply entries_names, json_files.
Qed.

Lemma leb_antisym (a : jsstring) : forall b,
  leb a b = true -> leb b a = true -> a = b.
Proof.
  induction a as [|x a IH]; intros [|y b]; cbn [leb]; try discriminate; auto.
  destruct (N.ltb_spec x y) as [Hxy|Hxy].
  - destruct (N.ltb_spec y x); [lia | discriminate].
  - destruct (N.ltb_spec y x) as [Hyx|Hyx]; [discriminate|].
    intros H1 H2. f_equal; [lia | now apply IH].
Qed.

Lemma leb_trans (a : jsstring) : forall b c,
  leb a b = true -> leb b c = true -> leb a c = true.
Proof.
  induction a as [|x a IH]; intros [|y b] [|z c]; cbn [leb];
    try discriminate; auto.
  destruct (N.ltb_spec x y) as [Hxy|Hxy];
    destruct (N.ltb_spec y z) as [Hyz|Hyz];
    destruct (N.ltb_spec x z) as [Hxz|Hxz]; auto; try lia;
    destruct (N.ltb_spec y x) as [Hyx|Hyx]; try discriminate;
    destruct (N.ltb_spec z y) as [Hzy|Hzy]; try discriminate;
    destruct (N.ltb_spec z x) as [Hzx|Hzx]; try lia.
  apply IH.
Qed.

(** The sorted order of a list of strings is unique: whatever algorithm
    [sort()] runs, its result is the list [sort] gives. *)
Lemma sorted_unique (l1 : list jsstring) : forall l2,
  Permutation l1 l2 -> Sorted below l1 -> Sorted below l2 -> l1 = l2.
Proof.
  assert (Htrans : Relations_1.Transitive below)
    by (intros a b c; apply leb_trans).
  induction l1 as [|x l1 IH]; intros l2 Hp H1 H2.
  - now apply Permutation_nil in Hp.
  - destruct l2 as [|y l2];
      [apply Permutation_sym, Permutation_nil in Hp; discriminate|].
    apply (Sorted_StronglySorted Htrans) in H1, H2.
    apply StronglySorted_inv in H1 as [H1 Hx].
    apply StronglySorted_inv in H2 as [H2 Hy].
    assert (E : x = y).
    { assert (Hin1 : In x (y :: l2))
        by (apply (Permutation_in _ Hp); now left).
      assert (Hin2 : In y (x :: l1))
        by (apply (Permutation_in _ (Permutation_sym Hp)); now left).
      rewrite Forall_forall in Hx, Hy.
      destruct Hin1 as [->|Hin1]; [reflexivity|].
      destruct Hin2 as [->|Hin2]; [reflexivity|].
      apply leb_antisym; [apply (Hx y Hin2) | apply (Hy x Hin1)]. }
    subst y. f_equal. apply IH.
    + now apply Permutation_cons_inv in Hp.
    + now apply StronglySorted_Sorted.
    + now apply StronglySorted_Sorted.
Qed.

Lemma sort_unique (l l' : list jsstring) :
  Permutation l' l -> Sorted below l' -> l' = sort l.
Proof.
  intros Hp Hs. apply sorted_unique; auto.
  - rewrite Hp. apply Permutation_sym, sort_perm.
  - apply sort_sorted.
Qed.

(** X16.  The list of sessions holds the names of the directory that end in
    [.json] and no others, each once for each time it is in the directory,
    in the order of their code units; the entry at position [k] has index
    [k + 1]; and the file of every entry is its name followed by
    [.json]. *)
Theorem sessions_listed (files : list jsstring) :
  Permutation (map file (listSessions files))
              (filter (endsWith json_ext) files)
  /\ Sorted below (map file (listSessions files))
  /\ (forall k x, nth_error (listSessions files) k = Some x ->
                  index x = (N.of_nat k + 1)%N)
  /\ Forall (fun x => file x = name x ++ json_ext) (listSessions files).
Proof.
  unfold listSessions. rewrite entries_files. repeat split.
  - apply sort_perm.
  - apply sort_sorted.
  - intros k x H. now rewrite (entries_index _ _ _ H).
  - apply entries_names, json_files.
Qed.

Lemma find_index (fs : list jsstring) : forall i k,
  find (fun x => N.eqb (index x) k) (entries i fs)
  = if (k <=? i)%N then None
    else nth_error (entries i fs) (N.to_nat (k - i - 1)).
Proof.
  induction fs as [|f fs IH]; intros i k.
  - cbn [entries find]. destruct (k <=? i)%N; [reflexivity|].
    now destruct (N.to_nat (k - i - 1)).
  - cbn [entries find index]. rewrite IH.
    destruct (N.eqb_spec (i + 1) k) as [E|E].
    + subst k. replace (i + 1 <=? i)%N with false
        by (symmetry; apply N.leb_gt; lia).
      now replace (i + 1 - i - 1)%N with 0%N by lia.
    + destruct (N.leb_spec k i) as [Hle|Hgt].
      * now replace (k <=? i + 1)%N with true by (symmetry; apply N.leb_le; lia).
      * replace (k <=? i + 1)%N with false by (symmetry; apply N.leb_gt; lia).
        replace (N.to_nat (k - i - 1)) with (S (N.to_nat (k - (i + 1) - 1)))
          by lia.
        reflexivity.
Qed.

(** X17.  An identifier made of digits only is read as a number and names
    the session at that position of the list, from 1; it names none when
    the number is 0 or above the number of sessions.  It is never looked up
    as a name: a session whose name is a number is not loaded by its
    name. *)
Theorem digits_choose_by_position (identifier : jsstring)
  (files : list jsstring) :
  all_digits identifier = true ->
  choose identifier (listSessions files)
  = if N.eqb (parseInt identifier) 0 then None
    else nth_error (listSessions files)
                   (N.to_nat (parseInt identifier - 1)).
Proof.
  intros H. unfold choose, listSessions. rewrite H, find_index.
  destruct (N.eqb_spec (parseInt identifier) 0) as [E|E].
  - now rewrite E.
  - replace (parseInt identifier <=? 0)%N with false
      by (symmetry; apply N.leb_gt; lia).
    now replace (parseInt identifier - 0 - 1)%N
      with (parseInt identifier - 1)%N by lia.
Qed.

(** With the sessions [9] and [10] saved, [/load 9] finds nothing and
    [/load 2] loads the session [9]. *)
Lemma digits_choose_by_position_nine :
  choose (lit "9") (listSessions [lit "9.json"; lit "10.json"]) = None
  /\ choose (lit "2") (listSessions [lit "9.json"; lit "10.json"])
     = Some {| index := 2; file := lit "9.json"; name := lit "9" |}.
Proof.
  split.
  - exact (eq_trans
             (digits_choose_by_position (lit "9")
                [lit "9.json"; lit "10.json"] eq_refl)
             eq_refl).
  - reflexivity.
Defined.

Lemma find_by_name (x : SessionEntry) (l : list SessionEntry) :
  NoDup (map file l) ->
  Forall (fun y => file y = name y ++ json_ext) l ->
  In x l ->
  find (fun y => JS.eqb (name y) (name x)) l = Some x.
Proof.
  induction l as [|y l IH]; intros Hnd Hall Hin; [contradiction|].
  inversion Hnd as [|? ? Hny Hnd']; subst.
  inversion Hall as [|? ? Hy Hall']; subst.
  cbn [find]. destruct (JS.eqb (name y) (name x)) eqn:E.
  - apply eqb_eq in E. destruct Hin as [->|Hin]; [reflexivity|].
    exfalso. apply Hny. apply in_map_iff. exists x. split; [|exact Hin].
    rewrite Forall_forall in Hall'. rewrite (Hall' x Hin), Hy. now rewrite E.
  - destruct Hin as [->|Hin].
    + assert (JS.eqb (name x) (name x) = true) by now apply eqb_eq.
      congruence.
    + now apply IH.
Qed.

(** X18.  When the names in the directory are distinct, every listed
    session whose name is not made of digits only is the one that its own
    name chooses. *)
Theorem name_chooses_session (files : list jsstring) (x : SessionEntry) :
  NoDup files ->
  In x (listSessions files) ->
  all_digits (name x) = false ->
  choose (name x) (listSessions files) = Some x.
Proof.
  intros Hnd Hin Hd. unfold choose. rewrite Hd.
  destruct (sessions_names files) as [Hp Hf].
  rewrite find_by_name; auto.
  apply (Permutation_NoDup (Permutation_sym Hp)).
  now apply NoDup_filter.
Qed.

(** A directory with a session and another file. *)
Lemma name_chooses_session_notes :
  choose (lit "notes") (listSessions [lit "todo.txt"; lit "notes.json"])
  = Some {| index := 1; file := lit "notes.json"; name := lit "notes" |}.
Proof.
  refine (name_chooses_session
            (files := [lit "todo.txt"; lit "notes.json"])
            {| index := 1; file := lit "notes.json"; name := lit "notes" |}
            _ _ eq_refl).
  - repeat constructor; cbn; intros H;
      repeat (destruct H as [H|H]; [discriminate|]); exact H.
  - now left.
Defined.

Lemma endsWith_app (r suffix : jsstring) : endsWith suffix (r ++ suffix) = true.
Proof.
  unfold endsWith. rewrite rev_app_distr.
  generalize (rev suffix) as p, (rev r) as q. clear.
  induction p as [|x p IH]; intros q; [reflexivity|].
  cbn [app startsWith]. now rewrite N.eqb_refl, IH.
Qed.

(** X19.  When the sessions directory lists the file of a saved session
    under the name it was written with, the name it was saved under, the
    argument of [/save] or the default [session_] and the time stamp,
    loads it again, provided the entries of the directory are distinct and
    that name is not made of digits only: the list has an entry with this
    name and this file, and the name chooses it.  What the file system
    makes of the name is in the hypothesis. *)
Theorem saved_session_loads (given stamp : jsstring) (files : list jsstring) :
  NoDup files ->
  In (session_file given stamp) files ->
  all_digits (session_base given stamp) = false ->
  exists i,
    choose (session_base given stamp) (listSessions files)
    = Some {| index := i; file := session_file given stamp;
              name := session_base given stamp |}.
Proof.
  intros Hnd Hin Hd.
  destruct (sessions_names files) as [Hp Hf].
  assert (Hx : exists x, file x = session_file given stamp
                         /\ In x (listSessions files)).
  { apply in_map_iff. apply (Permutation_in _ (Permutation_sym Hp)).
    apply filter_In. split; [exact Hin | apply endsWith_app]. }
  destruct Hx as (x & Hfile & Hxin).
  assert (Hname : name x = session_base given stamp).
  { rewrite Forall_forall in Hf. specialize (Hf x Hxin).
    rewrite Hfile in Hf. unfold session_file in Hf.
    now apply app_inv_tail in Hf. }
  exists (index x). unfold choose. rewrite Hd, <- Hname.
  rewrite find_by_name; auto.
  - destruct x as [i f n]. cbn [index file name] in *. now subst.
  - apply (Permutation_NoDup (Permutation_sym Hp)). now apply NoDup_filter.
Qed.

(** [/save notes] in a directory that holds another session. *)
Lemma saved_session_loads_notes :
  exists i,
    choose (lit "notes") (listSessions [lit "notes.json"; lit "old.json"])
    = Some {| index := i; file := lit "notes.json"; name := lit "notes" |}.
Proof.
  refine (saved_session_loads (lit "notes") []
            (files := [lit "notes.json"; lit "old.json"]) _ _ eq_refl).
  - constructor; [|constructor; [intros H; exact H | constructor]].
    intros [H|H]; [discriminate H | exact H].
  - now left.
Defined.

End SessionFacts.
